(** * Rainflow cycle counting ([src/rainflow/rainflow.js])

    A shallow embedding of the three functions of the rainflow core,
    [reversals], [extractCycles] and [countCycles], and the properties the
    specification states about them.

    Numbers.  The code is embedded twice.

    The first embedding models a JavaScript number by [num]: an exact rational
    ([Qc], canonical fractions, so that Leibniz equality is numeric equality)
    or one of the three special values NaN, +Infinity, -Infinity, with the
    IEEE 754 rules for the special values written out.  Arithmetic on finite
    values is exact there, so it carries the properties that hold whichever
    way a difference or a product is rounded: the shape and the indices of
    the reversals and of the cycles, the conservation of the counts, the
    scenarios on small integers.

    The second embedding, [Module B64], has the same functions on binary64,
    the numbers the code computes with ([PrimFloat], specified by
    [SpecFloat]): differences, quotients and products are rounded, overflow
    gives an Infinity, and the loop counter is a double.  It carries the
    properties that depend on what the arithmetic returns: the closure test,
    the keys of the histogram and the bound of the densification loop. *)

From Equations Require Import Equations.
From Stdlib Require Import List Arith Lia ZArith QArith Qcanon Qround Bool.
From Stdlib Require Import Permutation Sorted Lqa.
From Stdlib Require Floats Uint63.
Import ListNotations.

Local Open Scope nat_scope.

(** ** JavaScript numbers *)

Inductive num : Type :=
| NaN
| PInf
| NInf
| Fin (q : Qc).

Definition of_Z (z : Z) : num := Fin (Q2Qc (inject_Z z)).

Definition zero : num := of_Z 0.
Definition one : num := of_Z 1.
Definition half : num := Fin (Q2Qc (1 # 2)).

(** [a < b] and [a == b] on canonical rationals, computed on the integers. *)
Definition Qcltb (a b : Qc) : bool :=
  (Qnum a * QDen b <? Qnum b * QDen a)%Z.

Definition Qceqb (a b : Qc) : bool := Qeq_bool a b.

Definition neg (x : num) : num :=
  match x with
  | NaN => NaN
  | PInf => NInf
  | NInf => PInf
  | Fin q => Fin (- q)%Qc
  end.

(** [x + y] *)
Definition add (x y : num) : num :=
  match x, y with
  | NaN, _ | _, NaN => NaN
  | PInf, NInf | NInf, PInf => NaN
  | PInf, _ | _, PInf => PInf
  | NInf, _ | _, NInf => NInf
  | Fin a, Fin b => Fin (a + b)%Qc
  end.

(** [x - y] *)
Definition sub (x y : num) : num := add x (neg y).

(** An infinity times (or divided by) a finite factor of the given sign. *)
Definition scale_inf (inf : num) (a : Qc) : num :=
  if Qceqb a 0%Qc then NaN
  else if Qcltb 0%Qc a then inf else neg inf.

(** [x * y] *)
Definition mul (x y : num) : num :=
  match x, y with
  | NaN, _ | _, NaN => NaN
  | Fin a, Fin b => Fin (a * b)%Qc
  | Fin a, inf => scale_inf inf a
  | inf, Fin b => scale_inf inf b
  | PInf, PInf | NInf, NInf => PInf
  | PInf, NInf | NInf, PInf => NInf
  end.

(** [x / y]; a zero divisor is the positive zero. *)
Definition div (x y : num) : num :=
  match x, y with
  | NaN, _ | _, NaN => NaN
  | Fin a, Fin b =>
      if Qceqb b 0%Qc then
        if Qceqb a 0%Qc then NaN
        else if Qcltb 0%Qc a then PInf else NInf
      else Fin (a / b)%Qc
  | Fin _, _ => zero
  | inf, Fin b => if Qcltb b 0%Qc then neg inf else inf
  | _, _ => NaN
  end.

(** [Math.abs] *)
Definition abs (x : num) : num :=
  match x with
  | NaN => NaN
  | PInf | NInf => PInf
  | Fin q => if Qcltb q 0%Qc then Fin (- q)%Qc else Fin q
  end.

(** [Math.ceil] *)
Definition ceil (x : num) : num :=
  match x with
  | Fin q => of_Z (Qceiling q)
  | _ => x
  end.

(** [x < y]: false as soon as one side is NaN. *)
Definition ltb (x y : num) : bool :=
  match x, y with
  | NaN, _ | _, NaN => false
  | _, NInf => false
  | NInf, _ => true
  | PInf, _ => false
  | Fin _, PInf => true
  | Fin a, Fin b => Qcltb a b
  end.

(** [x === y] on numbers: NaN differs from itself. *)
Definition num_strict_eq (x y : num) : bool :=
  match x, y with
  | PInf, PInf | NInf, NInf => true
  | Fin a, Fin b => Qceqb a b
  | _, _ => false
  end.

(** [Math.max(x, y)] *)
Definition max (x y : num) : num :=
  match x, y with
  | NaN, _ | _, NaN => NaN
  | _, _ => if ltb x y then y else x
  end.

(** ToBoolean on a number: 0 and NaN are falsy. *)
Definition truthy (x : num) : bool :=
  match x with
  | NaN => false
  | Fin q => negb (Qceqb q 0%Qc)
  | _ => true
  end.

(** ** JavaScript values read from the series

    [series[i]] is a number, or [undefined] past the end of the array. *)

Inductive value : Type :=
| Undefined
| Number (n : num).

(** ToNumber *)
Definition to_number (v : value) : num :=
  match v with
  | Undefined => NaN
  | Number n => n
  end.

(** [v === w] *)
Definition strict_eq (v w : value) : bool :=
  match v, w with
  | Undefined, Undefined => true
  | Number a, Number b => num_strict_eq a b
  | _, _ => false
  end.

Definition series_at (series : list num) (i : nat) : value :=
  match nth_error series i with
  | Some x => Number x
  | None => Undefined
  end.

(** ** Reversals *)

(** A reversal point [[i, x]]. *)
Definition point : Type := (Z * value)%type.

(** The body of [for (let i = 1; i < series.length; i++)], on the samples
    [series[i], series[i+1], ...] still to be read; [xLast] is written but
    never read after the initialisation, so it is not part of the state. *)
Fixpoint scan (i : Z) (rest : list num) (x : value) (dLast : num)
  (result : list point) : value * list point :=
  match rest with
  | [] => (x, result)
  | xNext :: rest' =>
      if strict_eq (Number xNext) x then scan (i + 1)%Z rest' x dLast result
      else
        let dNext := sub xNext (to_number x) in
        let result' :=
          if ltb (mul dLast dNext) zero then result ++ [(i, x)] else result in
        scan (i + 1)%Z rest' (Number xNext) dNext result'
  end.

Definition reversals (series : list num) : list point :=
  let xLast := series_at series 0 in
  let x := series_at series 1 in
  let dLast := sub (to_number x) (to_number xLast) in
  let result := [(0%Z, xLast)] in
  let '(x', result') := scan 1%Z (skipn 1 series) x dLast result in
  result' ++ [((Z.of_nat (length series) - 1)%Z, x')].

(** ** Cycle extraction *)

(** A cycle [[rng, mean, count, i1, i2]]. *)
Record cycle : Type := mkCycle {
  rng : num;
  mean : num;
  count : num;
  i1 : Z;
  i2 : Z
}.

Definition formatOutput (point1 point2 : point) (count : num) : cycle :=
  let '(i1, x1) := point1 in
  let '(i2, x2) := point2 in
  let rng := abs (sub (to_number x1) (to_number x2)) in
  let mean := mul half (add (to_number x1) (to_number x2)) in
  mkCycle rng mean count i1 i2.

(** [points[i]]; the index is in range wherever the code reads. *)
Definition point_at (points : list point) (i : nat) : point :=
  nth i points (0%Z, Undefined).

(** [points.shift()] and [points.pop()], as the array left behind. *)
Definition shift (points : list point) : list point := tl points.
Definition pop (points : list point) : list point := removelast points.
Definition top (points : list point) : point := last points (0%Z, Undefined).

(** [X = |x3 - x2|] and [Y = |x2 - x1|] over the three topmost points. *)
Definition range_X (points : list point) : num :=
  let x2 := snd (point_at points (length points - 2)) in
  let x3 := snd (point_at points (length points - 1)) in
  abs (sub (to_number x3) (to_number x2)).

Definition range_Y (points : list point) : num :=
  let x1 := snd (point_at points (length points - 3)) in
  let x2 := snd (point_at points (length points - 2)) in
  abs (sub (to_number x2) (to_number x1)).

(** The inner [while (points.length >= 3)] loop, on the state
    [(points, cycles)]. *)
Equations? closure (points : list point) (cycles : list cycle) :
  list point * list cycle by wf (length points) lt :=
  closure points cycles with le_lt_dec 3 (length points) => {
    | right _ := (points, cycles);
    | left _ :=
        if ltb (range_X points) (range_Y points) then (points, cycles)
        else if length points =? 3 then
          closure (shift points)
            (cycles ++ [formatOutput (point_at points 0) (point_at points 1) half])
        else
          closure (pop (pop (pop points)) ++ [top points])
            (cycles ++ [formatOutput (point_at points (length points - 3))
                                     (point_at points (length points - 2)) one]) }.
Proof.
  - destruct points; simpl in *; lia.
  - unfold pop. rewrite length_app, !removelast_firstn_len, !length_firstn.
    simpl. lia.
Qed.

(** One turn of [for (const point of reversals(series))]. *)
Definition push_point (st : list point * list cycle) (p : point) :
  list point * list cycle :=
  closure (fst st ++ [p]) (snd st).

(** The final [while (points.length > 1)] loop. *)
Fixpoint drain (points : list point) (cycles : list cycle) : list cycle :=
  match points with
  | p0 :: (p1 :: _) as rest => drain rest (cycles ++ [formatOutput p0 p1 half])
  | _ => cycles
  end.

Definition extractCycles (series : list num) : list cycle :=
  let '(points, cycles) := fold_left push_point (reversals series) ([], []) in
  drain points cycles.

(** ** Aggregation

    [counts] is an object used as a map.  A property key is the canonical
    string of a number; that string names the number (both zeros are "0", NaN
    is "NaN"), so a key is modelled by the number it denotes and two keys are
    the same property when [key_eqb] holds.  The association list keeps the
    properties in creation order. *)

Definition key_eqb (a b : num) : bool :=
  match a, b with
  | NaN, NaN | PInf, PInf | NInf, NInf => true
  | Fin p, Fin q => Qceqb p q
  | _, _ => false
  end.

Definition entry : Type := (num * num)%type.

(** [counts[k]] *)
Fixpoint get (counts : list entry) (k : num) : option num :=
  match counts with
  | [] => None
  | (k', v) :: rest => if key_eqb k' k then Some v else get rest k
  end.

(** [counts[k] = v] *)
Fixpoint set (counts : list entry) (k v : num) : list entry :=
  match counts with
  | [] => [(k, v)]
  | (k', v') :: rest =>
      if key_eqb k' k then (k', v) :: rest else (k', v') :: set rest k v
  end.

(** [counts[k] || 0] *)
Definition or_zero (o : option num) : num :=
  match o with
  | Some v => if truthy v then v else zero
  | None => zero
  end.

(** [counts[k] = (counts[k] || 0) + c] *)
Definition bump (counts : list entry) (k c : num) : list entry :=
  set counts k (add (or_zero (get counts k)) c).

(** [counts[k] = counts[k] || 0] *)
Definition touch (counts : list entry) (k : num) : list entry :=
  set counts k (or_zero (get counts k)).

(** The body of the binning loop, on the state [(counts, nmax)]. *)
Definition bin_step (binsize : num) (st : list entry * num) (c : num * num) :
  list entry * num :=
  let '(counts, nmax) := st in
  let '(rng, count) := c in
  let n := ceil (div rng binsize) in
  (bump counts (mul n binsize) count, max n nmax).

(** [for (let i = 1; i < nmax; i++) counts[i * binsize] = counts[i * binsize] || 0].
    The loop need not end ([nmax] may be Infinity), so it runs on fuel: [None]
    is a run that has not left the loop when the fuel is spent. *)
Fixpoint densify (fuel : nat) (i nmax binsize : num) (counts : list entry) :
  option (list entry) :=
  if ltb i nmax then
    match fuel with
    | 0 => None
    | S fuel' => densify fuel' (add i one) nmax binsize (touch counts (mul i binsize))
    end
  else Some counts.

(** The body of the loop without binning. *)
Definition raw_step (counts : list entry) (c : num * num) : list entry :=
  let '(rng, count) := c in
  bump counts rng count.

(** [Array.prototype.sort(comparefn)]: a stable sort; [x] goes before [y] when
    [comparefn(x, y) < 0]. *)
Fixpoint insert_by {A : Type} (cmp : A -> A -> num) (x : A) (l : list A) : list A :=
  match l with
  | [] => [x]
  | y :: l' => if ltb (cmp x y) zero then x :: l else y :: insert_by cmp x l'
  end.

Definition sort_by {A : Type} (cmp : A -> A -> num) (l : list A) : list A :=
  fold_left (fun acc x => insert_by cmp x acc) l [].

(** A key that is an array index: an integer from 0 to 2^32 - 2. *)
Definition is_array_index (k : num) : bool :=
  match k with
  | Fin q => (Pos.eqb (Qden q) 1 && (0 <=? Qnum q)%Z && (Qnum q <? 4294967295)%Z)%bool
  | _ => false
  end.

(** [(a, b) => a[0] - b[0]] *)
Definition by_key (a b : entry) : num := sub (fst a) (fst b).

(** [Object.entries(counts)]: array-index keys first, in ascending order, then
    the other keys in creation order. *)
Definition Object_entries (counts : list entry) : list entry :=
  sort_by by_key (filter (fun e => is_array_index (fst e)) counts)
  ++ filter (fun e => negb (is_array_index (fst e))) counts.

(** Lines 80 to 97 of [countCycles]: the aggregation of the [[rng, count]]
    pairs; [binsize = None] is [null]. *)
Definition aggregate (fuel : nat) (cycles : list (num * num)) (binsize : option num) :
  option (list entry) :=
  match binsize with
  | Some b =>
      let '(counts, nmax) := fold_left (bin_step b) cycles ([], zero) in
      match densify fuel one nmax b counts with
      | Some counts' => Some (sort_by by_key (Object_entries counts'))
      | None => None
      end
  | None =>
      Some (sort_by by_key (Object_entries (fold_left raw_step cycles [])))
  end.

(** [countCycles(series, binsize = null)].  [fuel] bounds the turns of the
    densification loop, the only loop that need not end; [None] is a run that
    has not come back within the fuel.  The code has no [throw] and no check of
    its arguments, so there is no failure outcome. *)
Definition countCycles (fuel : nat) (series : list num) (binsize : option num) :
  option (list entry) :=
  aggregate fuel (map (fun c => (rng c, count c)) (extractCycles series)) binsize.

(** The signals of the two scenarios. *)
Definition sig1 : list num := map of_Z [0; 5; 2; 8; 12]%Z.
Definition sig2 : list num := map of_Z [0; 5; 0]%Z.

(** ** Vocabulary of the specification *)

(** The range between two neighbouring stack points. *)
Definition gap (p q : point) : num :=
  abs (sub (to_number (snd q)) (to_number (snd p))).

(** The consecutive ranges of the stack decrease strictly from bottom to top:
    every three neighbours [p1; p2; p3] have [|p3 - p2| < |p2 - p1|]. *)
Fixpoint decreasing (points : list point) : bool :=
  match points with
  | [] => true
  | p1 :: rest =>
      match rest with
      | p2 :: p3 :: _ => ltb (gap p2 p3) (gap p1 p2) && decreasing rest
      | _ => true
      end
  end.

(** The state of [extractCycles] after the first [n] reversals. *)
Definition state_after (n : nat) (series : list num) : list point * list cycle :=
  fold_left push_point (firstn n (reversals series)) ([], []).

(** The sum of [count] over a list of cycles. *)
Definition sum_count (cycles : list cycle) : num :=
  fold_left (fun acc c => add acc (count c)) cycles zero.

Definition is_finite (x : num) : bool :=
  match x with
  | Fin _ => true
  | _ => false
  end.

(** [m] half units, the number [m / 2]. *)
Definition halves (m : Z) : num := Fin (Q2Qc (m # 2)).

(** The sum of a list of numbers, and of the counts of a histogram (or of a
    list of [[rng, count]] pairs). *)
Definition sum_list (l : list num) : num := fold_left add l zero.
Definition total (h : list entry) : num := sum_list (map snd h).

Definition keys (h : list entry) : list num := map fst h.

(** Entries in strictly ascending order of key. *)
Definition key_lt (e1 e2 : entry) : Prop := ltb (fst e1) (fst e2) = true.
Definition ascending (h : list entry) : Prop := StronglySorted key_lt h.

Definition finite_keys (h : list entry) : Prop :=
  Forall (fun e => is_finite (fst e) = true) h.
Definition finite_counts (h : list entry) : Prop :=
  Forall (fun e => is_finite (snd e) = true) h.

(** The bucket of a [[rng, count]] pair: [n = Math.ceil(rng / binsize)] and the
    key [n * binsize]. *)
Definition bucket_index (binsize : num) (c : num * num) : num :=
  ceil (div (fst c) binsize).
Definition bucket_key (binsize : num) (c : num * num) : num :=
  mul (bucket_index binsize c) binsize.



(** The two cycles of the signal [0, 5, 2, 8, 12], as [[rng, count]] pairs. *)
Definition pairs1 : list (num * num) := [(of_Z 3, one); (of_Z 12, half)].

Definition positive_ranges (cycles : list (num * num)) : Prop :=
  Forall (fun c => ltb zero (fst c) = true) cycles.

Definition finite_count (c : cycle) : Prop := is_finite (count c) = true.

(** A point with integer value, for the examples. *)
Definition pt (i x : Z) : point := (i, Number (of_Z x)).

(** Closed equations between computed values: the canonicity proofs inside
    [Qc] are compared through [Qc_is_canon]. *)
Ltac canon_eq :=
  vm_compute;
  repeat first [ reflexivity | apply Qc_is_canon; reflexivity | f_equal ].

(** ** Vocabulary of the further properties *)

(** What the scan started at index [i] with the current value [x] records for
    a point: its index is that of a sample of [rest], its value is the one that
    was current when the sample was read (the sample before it, or [x] for the
    first one), and the sample itself differs from that value. *)
Definition scanned (i : Z) (x : value) (rest : list num) (p : point) : Prop :=
  (i <= fst p < i + Z.of_nat (length rest))%Z /\
  snd p = nth (Z.to_nat (fst p - i)) (x :: map Number rest) Undefined /\
  strict_eq (nth (Z.to_nat (fst p - i)) (map Number rest) Undefined) (snd p) = false.

(** A reversal recorded inside the scan of [series]: its index [i] is at least
    2, its value is the sample before that index, and the sample at the index
    is another value. *)
Definition interior_point (series : list num) (p : point) : Prop :=
  (2 <= fst p <= Z.of_nat (length series) - 1)%Z /\
  snd p = series_at series (Z.to_nat (fst p) - 1) /\
  strict_eq (series_at series (Z.to_nat (fst p))) (snd p) = false.






(** A signal whose samples never go down, or never go up. *)
Definition nondecreasing (series : list num) : Prop :=
  Sorted (fun a b => ltb b a = false) series.
Definition nonincreasing (series : list num) : Prop :=
  Sorted (fun a b => ltb a b = false) series.

(** Every difference between neighbours of [a :: qs] satisfies [D]. *)
Fixpoint steps (D : Qc -> Prop) (a : Qc) (qs : list Qc) : Prop :=
  match qs with
  | [] => True
  | y :: qs' => D (y + - a)%Qc /\ steps D y qs'
  end.

(** * The same code over binary64

    The functions of [rainflow.js] once more, on the doubles the code computes
    with: [PrimFloat] is IEEE 754 binary64 with round to nearest, ties to even,
    and every operation below is the primitive one.  The properties that
    depend on how a difference, a quotient or a product is rounded, or on the
    loop counter being a double, are stated on this model. *)

Module B64.

Import PrimFloat SpecFloat FloatOps FloatAxioms.

Inductive value : Type :=
| Undefined
| Number (x : float).

(** [ToNumber]: [undefined] is NaN. *)
Definition to_number (v : value) : float :=
  match v with
  | Undefined => nan
  | Number x => x
  end.

(** [v === w]: on numbers the IEEE equality (NaN differs from itself, the two
    zeros are equal). *)
Definition strict_eq (v w : value) : bool :=
  match v, w with
  | Undefined, Undefined => true
  | Number a, Number b => PrimFloat.eqb a b
  | _, _ => false
  end.

Definition series_at (series : list float) (i : nat) : value :=
  match nth_error series i with
  | Some x => Number x
  | None => Undefined
  end.

(** The double of an integer from 0 to 2^53. *)
Definition of_int (z : Z) : float := of_uint63 (Uint63.of_Z z).

(** [Math.ceil]: the double is [m * 2^e]; with [e >= 0] it is an integer. *)
Definition ceil (x : float) : float :=
  match Prim2SF x with
  | S754_finite s m e =>
      if (0 <=? e)%Z then x
      else
        let q := Z.shiftr (Zpos m) (- e) in
        if s then PrimFloat.opp (of_int q)
        else if (Z.shiftl q (- e) =? Zpos m)%Z then of_int q
        else of_int (q + 1)
  | _ => x
  end.

(** [Math.max(x, y)]: NaN when one argument is; [+0] is above [-0]. *)
Definition max (x y : float) : float :=
  if (is_nan x || is_nan y)%bool then nan
  else if PrimFloat.ltb x y then y
  else if PrimFloat.ltb y x then x
  else if get_sign x then y else x.

(** [v] is truthy: not a zero, not NaN. *)
Definition truthy (v : float) : bool := negb (is_zero v || is_nan v).

(** ** Reversals *)

Definition point : Type := (Z * value)%type.

Fixpoint scan (i : Z) (rest : list float) (x : value) (dLast : float)
  (result : list point) : value * list point :=
  match rest with
  | [] => (x, result)
  | xNext :: rest' =>
      if strict_eq (Number xNext) x then scan (i + 1)%Z rest' x dLast result
      else
        let dNext := PrimFloat.sub xNext (to_number x) in
        let result' :=
          if PrimFloat.ltb (PrimFloat.mul dLast dNext) zero
          then result ++ [(i, x)] else result in
        scan (i + 1)%Z rest' (Number xNext) dNext result'
  end.

Definition reversals (series : list float) : list point :=
  let xLast := series_at series 0 in
  let x := series_at series 1 in
  let dLast := PrimFloat.sub (to_number x) (to_number xLast) in
  let result := [(0%Z, xLast)] in
  let '(x', result') := scan 1%Z (skipn 1 series) x dLast result in
  result' ++ [((Z.of_nat (length series) - 1)%Z, x')].

(** ** Cycle extraction *)

Record cycle : Type := mkCycle {
  rng : float;
  mean : float;
  count : float;
  i1 : Z;
  i2 : Z
}.

Definition half : float := Eval compute in PrimFloat.div one two.

Definition formatOutput (point1 point2 : point) (count : float) : cycle :=
  let '(i1, x1) := point1 in
  let '(i2, x2) := point2 in
  let rng := PrimFloat.abs (PrimFloat.sub (to_number x1) (to_number x2)) in
  let mean := PrimFloat.mul half (PrimFloat.add (to_number x1) (to_number x2)) in
  mkCycle rng mean count i1 i2.

Definition point_at (points : list point) (i : nat) : point :=
  nth i points (0%Z, Undefined).

Definition shift (points : list point) : list point := tl points.
Definition pop (points : list point) : list point := removelast points.
Definition top (points : list point) : point := last points (0%Z, Undefined).

Definition range_X (points : list point) : float :=
  let x2 := snd (point_at points (length points - 2)) in
  let x3 := snd (point_at points (length points - 1)) in
  PrimFloat.abs (PrimFloat.sub (to_number x3) (to_number x2)).

Definition range_Y (points : list point) : float :=
  let x1 := snd (point_at points (length points - 3)) in
  let x2 := snd (point_at points (length points - 2)) in
  PrimFloat.abs (PrimFloat.sub (to_number x2) (to_number x1)).

Equations? closure (points : list point) (cycles : list cycle) :
  list point * list cycle by wf (length points) lt :=
  closure points cycles with le_lt_dec 3 (length points) => {
    | right _ := (points, cycles);
    | left _ :=
        if PrimFloat.ltb (range_X points) (range_Y points) then (points, cycles)
        else if length points =? 3 then
          closure (shift points)
            (cycles ++ [formatOutput (point_at points 0) (point_at points 1) half])
        else
          closure (pop (pop (pop points)) ++ [top points])
            (cycles ++ [formatOutput (point_at points (length points - 3))
                                     (point_at points (length points - 2)) one]) }.
Proof.
  - destruct points; simpl in *; lia.
  - unfold pop. rewrite length_app, !removelast_firstn_len, !length_firstn.
    simpl. lia.
Qed.

Definition push_point (st : list point * list cycle) (p : point) :
  list point * list cycle :=
  closure (fst st ++ [p]) (snd st).

Fixpoint drain (points : list point) (cycles : list cycle) : list cycle :=
  match points with
  | p0 :: (p1 :: _) as rest => drain rest (cycles ++ [formatOutput p0 p1 half])
  | _ => cycles
  end.

Definition extractCycles (series : list float) : list cycle :=
  let '(points, cycles) := fold_left push_point (reversals series) ([], []) in
  drain points cycles.

(** ** Aggregation

    A property key is the string of a number; the double it names is kept in
    its place: the two zeros have the one string "0", and a double that is not
    a zero is named by its own string ("NaN" for NaN).  So two keys are the
    same property when the doubles are the same. *)

Definition key (x : float) : float := if is_zero x then zero else x.

Definition entry : Type := (float * float)%type.

Fixpoint get (counts : list entry) (k : float) : option float :=
  match counts with
  | [] => None
  | (k', v) :: rest => if Leibniz.eqb k' k then Some v else get rest k
  end.

Fixpoint set (counts : list entry) (k v : float) : list entry :=
  match counts with
  | [] => [(k, v)]
  | (k', v') :: rest =>
      if Leibniz.eqb k' k then (k', v) :: rest else (k', v') :: set rest k v
  end.

(** [counts[k] || 0] *)
Definition or_zero (o : option float) : float :=
  match o with
  | Some v => if truthy v then v else zero
  | None => zero
  end.

(** [counts[x] = (counts[x] || 0) + c] *)
Definition bump (counts : list entry) (x c : float) : list entry :=
  set counts (key x) (PrimFloat.add (or_zero (get counts (key x))) c).

(** [counts[x] = counts[x] || 0] *)
Definition touch (counts : list entry) (x : float) : list entry :=
  set counts (key x) (or_zero (get counts (key x))).

Definition bucket_index (binsize : float) (c : float * float) : float :=
  ceil (PrimFloat.div (fst c) binsize).

Definition bucket_key (binsize : float) (c : float * float) : float :=
  key (PrimFloat.mul (bucket_index binsize c) binsize).

Definition bin_step (binsize : float) (st : list entry * float) (c : float * float) :
  list entry * float :=
  let '(counts, nmax) := st in
  let '(rng, count) := c in
  let n := ceil (PrimFloat.div rng binsize) in
  (bump counts (PrimFloat.mul n binsize) count, max n nmax).

(** [for (let i = 1; i < nmax; i++) counts[i * binsize] = counts[i * binsize] || 0];
    [i] is a double and [i++] adds 1 to it.  [None] is a run that has not left
    the loop when the fuel is spent. *)
Fixpoint densify (fuel : nat) (i nmax binsize : float) (counts : list entry) :
  option (list entry) :=
  if PrimFloat.ltb i nmax then
    match fuel with
    | 0 => None
    | S fuel' =>
        densify fuel' (PrimFloat.add i one) nmax binsize
          (touch counts (PrimFloat.mul i binsize))
    end
  else Some counts.

Definition raw_step (counts : list entry) (c : float * float) : list entry :=
  let '(rng, count) := c in
  bump counts rng count.

(** [Array.prototype.sort(comparefn)]: [x] goes before [y] when
    [comparefn(x, y) < 0].  The result is fixed by the language when the
    comparator is a consistent order, as [a[0] - b[0]] is on keys that are
    numbers; an insertion sort computes it.  With a NaN key the comparator is
    not consistent and the order is the engine's own: no property below
    speaks of the order then. *)
Fixpoint insert_by {A : Type} (cmp : A -> A -> float) (x : A) (l : list A) : list A :=
  match l with
  | [] => [x]
  | y :: l' =>
      if PrimFloat.ltb (cmp x y) zero then x :: l else y :: insert_by cmp x l'
  end.

Definition sort_by {A : Type} (cmp : A -> A -> float) (l : list A) : list A :=
  fold_left (fun acc x => insert_by cmp x acc) l [].

(** A key that is an array index: an integer from 0 to 2^32 - 2. *)
Definition is_array_index (k : float) : bool :=
  (PrimFloat.leb zero k && PrimFloat.leb k (of_int 4294967294)
   && PrimFloat.eqb (ceil k) k)%bool.

(** [(a, b) => a[0] - b[0]] *)
Definition by_key (a b : entry) : float := PrimFloat.sub (fst a) (fst b).

(** [Object.entries(counts)]: array-index keys first, in ascending order, then
    the other keys in creation order. *)
Definition Object_entries (counts : list entry) : list entry :=
  sort_by by_key (filter (fun e => is_array_index (fst e)) counts)
  ++ filter (fun e => negb (is_array_index (fst e))) counts.

(** The bound [nmax] of the densification loop. *)
Definition loop_bound (binsize : float) (cycles : list (float * float)) : float :=
  snd (fold_left (bin_step binsize) cycles ([], zero)).

Definition aggregate (fuel : nat) (cycles : list (float * float))
  (binsize : option float) : option (list entry) :=
  match binsize with
  | Some b =>
      let '(counts, nmax) := fold_left (bin_step b) cycles ([], zero) in
      match densify fuel one nmax b counts with
      | Some counts' => Some (sort_by by_key (Object_entries counts'))
      | None => None
      end
  | None =>
      Some (sort_by by_key (Object_entries (fold_left raw_step cycles [])))
  end.

Definition countCycles (fuel : nat) (series : list float) (binsize : option float) :
  option (list entry) :=
  aggregate fuel (map (fun c => (rng c, count c)) (extractCycles series)) binsize.

(** ** Vocabulary *)

(** The range between two neighbouring stack points. *)
Definition gap (p q : point) : float :=
  PrimFloat.abs (PrimFloat.sub (to_number (snd q)) (to_number (snd p))).

Definition keys (h : list entry) : list float := map fst h.

(** Entries in strictly ascending order of key. *)
Definition key_lt (e1 e2 : entry) : Prop := PrimFloat.ltb (fst e1) (fst e2) = true.
Definition ascending (h : list entry) : Prop := StronglySorted key_lt h.

(** The [[rng, count]] pairs that [countCycles] aggregates. *)
Definition pairs (series : list float) : list (float * float) :=
  map (fun c => (rng c, count c)) (extractCycles series).

(** The loop counter after [k] turns: [1], then [i++] each turn. *)
Definition counter (k : nat) : float :=
  Nat.iter k (fun i => PrimFloat.add i one) one.

(** The ranges are not below zero (they come from [Math.abs]; NaN is in). *)
Definition ranges_not_below_zero (cycles : list (float * float)) : Prop :=
  Forall (fun c => PrimFloat.ltb (fst c) zero = false) cycles.


(** ** Sample data *)

Local Open Scope float_scope.

(** A point of the stack: an index and a number. *)
Definition pt (i : Z) (x : float) : point := (i, Number x).

(** The signal [0, 5, 2, 8, 12] and the [[rng, count]] pairs of its cycles. *)
Definition sig1 : list float := [0; 5; 2; 8; 12].
Definition pairs1 : list (float * float) := [(3, 1); (12, 0.5)].

(** The doubles written [0.3], [0.6], [0.8999999999999999], [0.9], [1e-17],
    [1e16] and [1e308]. *)
Definition d0_3 : float := 0x1.3333333333333p-2.
Definition d0_6 : float := 0x1.3333333333333p-1.
Definition d0_9_below : float := 0x1.cccccccccccccp-1.
Definition d0_9 : float := 0x1.ccccccccccccdp-1.
Definition d1e_17 : float := 0x1.70ef54646d497p-57.
Definition d1e16 : float := 0x1.1c37937e08p+53.
Definition d1e308 : float := 0x1.1ccf385ebc8ap+1023.

End B64.

(** ** Vocabulary of the binary64 facts *)

Section Binary64_vocabulary.

Import PrimFloat SpecFloat FloatOps.
Local Open Scope Z_scope.

(** [x] is not NaN and has the sign [s]. *)
Definition has_sign (s : bool) (x : spec_float) : Prop :=
  match x with
  | S754_zero s' | S754_infinity s' | S754_finite s' _ _ => s' = s
  | S754_nan => False
  end.

(** The canonical form of the integer [k], of at most [prec] digits. *)
Definition int_sf (k : positive) : spec_float :=
  S754_finite false (Z.to_pos (Zpos k * 2 ^ (prec - Zpos (digits2_pos k))))
    (Zpos (digits2_pos k) - prec).


(** Not above zero: a zero, a number below zero, or NaN. *)
Definition sf_not_above (x : spec_float) : Prop :=
  match x with
  | S754_finite false _ _ | S754_infinity false => False
  | _ => True
  end.

(** Not below zero: a zero, a number above zero, or NaN. *)
Definition sf_not_below (x : spec_float) : Prop :=
  match x with
  | S754_finite true _ _ | S754_infinity true => False
  | _ => True
  end.


End Binary64_vocabulary.

(** * Properties *)

(** ** Facts on numbers *)

Lemma Qcltb_lt (a b : Qc) : Qcltb a b = true <-> (a < b)%Qc.
Proof. unfold Qcltb, Qclt, Qlt. apply Z.ltb_lt. Qed.

Lemma Qcltb_ge (a b : Qc) : Qcltb a b = false <-> (b <= a)%Qc.
Proof.
  unfold Qcltb, Qcle, Qle. rewrite Z.ltb_ge. reflexivity.
Qed.

Lemma Qceqb_eq (a b : Qc) : Qceqb a b = true <-> a = b.
Proof.
  unfold Qceqb. rewrite Qeq_bool_iff. split.
  - apply Qc_is_canon.
  - intros ->. reflexivity.
Qed.

Lemma Qceqb_neq (a b : Qc) : Qceqb a b = false <-> a <> b.
Proof.
  rewrite <- Qceqb_eq. destruct (Qceqb a b); split; congruence.
Qed.

Lemma key_eqb_eq (a b : num) : key_eqb a b = true <-> a = b.
Proof.
  destruct a, b; simpl; try (split; congruence).
  rewrite Qceqb_eq. split; congruence.
Qed.

Lemma key_eqb_neq (a b : num) : key_eqb a b = false <-> a <> b.
Proof.
  rewrite <- key_eqb_eq. destruct (key_eqb a b); split; congruence.
Qed.

Example special_values :
  div one zero = PInf /\ div (neg one) zero = NInf /\ div zero zero = NaN /\
  div one PInf = zero /\ mul PInf zero = NaN /\ sub PInf PInf = NaN /\
  ltb NaN one = false /\ ltb one NaN = false /\ num_strict_eq NaN NaN = false /\
  max NaN one = NaN /\ abs NInf = PInf.
Proof. repeat split; canon_eq. Qed.

Example ceil_values :
  ceil (Fin (Q2Qc (3 # 5))) = one /\ ceil (Fin (Q2Qc (-3 # 5))) = zero /\
  ceil (Fin (Q2Qc (12 # 5))) = of_Z 3 /\ ceil (of_Z 2) = of_Z 2.
Proof. repeat split; canon_eq. Qed.

Example or_zero_values :
  or_zero None = zero /\ or_zero (Some NaN) = zero /\
  or_zero (Some zero) = zero /\ or_zero (Some half) = half.
Proof. repeat split; canon_eq. Qed.

(** ** The closure loop on a stack [below ++ [p1; p2; p3]] *)

Lemma length_snoc3 (below : list point) (p1 p2 p3 : point) :
  length (below ++ [p1; p2; p3]) = length below + 3.
Proof. rewrite length_app. reflexivity. Qed.

Lemma snoc3_inv (points : list point) :
  3 <= length points ->
  exists below p1 p2 p3, points = below ++ [p1; p2; p3].
Proof.
  intros H.
  destruct (exists_last (l := points)) as [l1 [p3 ->]].
  { intros ->. simpl in H. lia. }
  rewrite length_app in H. simpl in H.
  destruct (exists_last (l := l1)) as [l2 [p2 ->]].
  { intros ->. simpl in H. lia. }
  rewrite length_app in H. simpl in H.
  destruct (exists_last (l := l2)) as [l3 [p1 ->]].
  { intros ->. simpl in H. lia. }
  exists l3, p1, p2, p3. rewrite <- !app_assoc. reflexivity.
Qed.

Lemma point_at_snoc3 (below : list point) (p1 p2 p3 : point) :
  point_at (below ++ [p1; p2; p3]) (length (below ++ [p1; p2; p3]) - 3) = p1 /\
  point_at (below ++ [p1; p2; p3]) (length (below ++ [p1; p2; p3]) - 2) = p2 /\
  point_at (below ++ [p1; p2; p3]) (length (below ++ [p1; p2; p3]) - 1) = p3.
Proof.
  unfold point_at. rewrite length_snoc3.
  repeat split; rewrite app_nth2 by lia.
  - replace (length below + 3 - 3 - length below) with 0 by lia. reflexivity.
  - replace (length below + 3 - 2 - length below) with 1 by lia. reflexivity.
  - replace (length below + 3 - 1 - length below) with 2 by lia. reflexivity.
Qed.

Lemma range_X_snoc3 (below : list point) (p1 p2 p3 : point) :
  range_X (below ++ [p1; p2; p3]) = gap p2 p3.
Proof.
  unfold range_X, gap.
  destruct (point_at_snoc3 below p1 p2 p3) as (_ & -> & ->). reflexivity.
Qed.

Lemma range_Y_snoc3 (below : list point) (p1 p2 p3 : point) :
  range_Y (below ++ [p1; p2; p3]) = gap p1 p2.
Proof.
  unfold range_Y, gap.
  destruct (point_at_snoc3 below p1 p2 p3) as (-> & -> & _). reflexivity.
Qed.

Lemma pop_snoc (l : list point) (p : point) : pop (l ++ [p]) = l.
Proof. apply removelast_last. Qed.

Lemma collapse_snoc3 (below : list point) (p1 p2 p3 : point) :
  pop (pop (pop (below ++ [p1; p2; p3]))) ++ [top (below ++ [p1; p2; p3])]
  = below ++ [p3].
Proof.
  replace (below ++ [p1; p2; p3]) with (((below ++ [p1]) ++ [p2]) ++ [p3])
    by (rewrite <- !app_assoc; reflexivity).
  unfold top. rewrite last_last, !pop_snoc. reflexivity.
Qed.

Lemma closure_short (points : list point) (cycles : list cycle) :
  length points < 3 -> closure points cycles = (points, cycles).
Proof.
  intros H. rewrite closure_equation_1.
  destruct (le_lt_dec 3 (length points)); [lia | reflexivity].
Qed.

(** One turn of the loop, read on the three topmost points. *)
Lemma closure_snoc3 (below : list point) (p1 p2 p3 : point) (cycles : list cycle) :
  closure (below ++ [p1; p2; p3]) cycles =
  if ltb (gap p2 p3) (gap p1 p2) then (below ++ [p1; p2; p3], cycles)
  else
    match below with
    | [] => closure [p2; p3] (cycles ++ [formatOutput p1 p2 half])
    | _ :: _ => closure (below ++ [p3]) (cycles ++ [formatOutput p1 p2 one])
    end.
Proof.
  rewrite closure_equation_1.
  destruct (le_lt_dec 3 (length (below ++ [p1; p2; p3]))) as [Hle | Hlt].
  2: { exfalso. pose proof (length_snoc3 below p1 p2 p3). lia. }
  cbn [closure_unfold_clause_1].
  rewrite range_X_snoc3, range_Y_snoc3.
  destruct (ltb (gap p2 p3) (gap p1 p2)); [reflexivity |].
  destruct below as [| b below].
  - reflexivity.
  - replace (length ((b :: below) ++ [p1; p2; p3]) =? 3) with false.
    2: { symmetry. apply Nat.eqb_neq. rewrite length_snoc3. simpl. lia. }
    rewrite collapse_snoc3.
    destruct (point_at_snoc3 (b :: below) p1 p2 p3) as (-> & -> & _).
    reflexivity.
Qed.

(** Induction on the height of the stack. *)
Lemma stack_ind (P : list point -> Prop) :
  (forall points, (forall points', length points' < length points -> P points') -> P points) ->
  forall points, P points.
Proof.
  intros step points.
  induction points as [points IH] using (induction_ltof1 _ (@length point)).
  apply step. exact IH.
Qed.

(** ** The stack invariant *)

Lemma decreasing_app_l (l l' : list point) :
  decreasing (l ++ l') = true -> decreasing l = true.
Proof.
  induction l as [| p1 l IH]; [reflexivity |].
  destruct l as [| p2 [| p3 l]]; try reflexivity.
  intros H. simpl in H. apply andb_true_iff in H. destruct H as [H1 H2].
  simpl. rewrite H1. simpl. apply IH. exact H2.
Qed.

Lemma decreasing_snoc (l : list point) (p1 p2 p3 : point) :
  decreasing (l ++ [p1; p2]) = true ->
  ltb (gap p2 p3) (gap p1 p2) = true ->
  decreasing (l ++ [p1; p2; p3]) = true.
Proof.
  intros H HX.
  induction l as [| q1 l IH].
  - simpl. rewrite HX. reflexivity.
  - destruct l as [| q2 [| q3 l]].
    + simpl in *. rewrite HX. rewrite andb_true_r in *. rewrite H. reflexivity.
    + simpl in *. rewrite HX. rewrite !andb_true_r in *. exact H.
    + change (decreasing ((q1 :: q2 :: q3 :: l) ++ [p1; p2; p3]))
        with (ltb (gap q2 q3) (gap q1 q2)
              && decreasing ((q2 :: q3 :: l) ++ [p1; p2; p3])).
      change (decreasing ((q1 :: q2 :: q3 :: l) ++ [p1; p2]))
        with (ltb (gap q2 q3) (gap q1 q2)
              && decreasing ((q2 :: q3 :: l) ++ [p1; p2])) in H.
      apply andb_true_iff in H. destruct H as [H1 H2].
      rewrite H1. simpl andb. apply IH. exact H2.
Qed.

Lemma decreasing_short (points : list point) :
  length points < 3 -> decreasing points = true.
Proof.
  destruct points as [| p1 [| p2 [| p3 l]]]; simpl; try reflexivity. lia.
Qed.

(** The loop restores the invariant once it held below the newest point. *)
Lemma closure_decreasing (points : list point) :
  forall cycles,
    decreasing (pop points) = true ->
    decreasing (fst (closure points cycles)) = true.
Proof.
  induction points as [points IH] using stack_ind.
  intros cycles H.
  destruct (le_lt_dec 3 (length points)) as [Hle | Hlt].
  2: { rewrite closure_short by exact Hlt. apply decreasing_short. exact Hlt. }
  destruct (snoc3_inv points Hle) as (below & p1 & p2 & p3 & ->).
  replace (below ++ [p1; p2; p3]) with ((below ++ [p1; p2]) ++ [p3]) in H
    by (rewrite <- app_assoc; reflexivity).
  rewrite pop_snoc in H.
  rewrite closure_snoc3.
  destruct (ltb (gap p2 p3) (gap p1 p2)) eqn:HX.
  - simpl. apply decreasing_snoc; assumption.
  - destruct below as [| b below].
    + rewrite closure_short by (simpl; lia). reflexivity.
    + apply IH.
      * rewrite !length_app. simpl. lia.
      * rewrite pop_snoc. apply (decreasing_app_l _ [p1; p2]). exact H.
Qed.

Lemma fold_push_decreasing (rs : list point) :
  forall st, decreasing (fst st) = true ->
             decreasing (fst (fold_left push_point rs st)) = true.
Proof.
  induction rs as [| r rs IH]; intros st H; [exact H |].
  simpl. apply IH. unfold push_point.
  apply closure_decreasing. rewrite pop_snoc. exact H.
Qed.

Lemma decreasing_nth (points : list point) :
  decreasing points = true ->
  forall i,
    i + 2 < length points ->
    ltb (gap (point_at points (i + 1)) (point_at points (i + 2)))
        (gap (point_at points i) (point_at points (i + 1))) = true.
Proof.
  induction points as [| p1 points IH]; intros H i Hi; [simpl in Hi; lia |].
  destruct points as [| p2 [| p3 points]]; try (simpl in Hi; lia).
  change (decreasing (p1 :: p2 :: p3 :: points))
    with (ltb (gap p2 p3) (gap p1 p2) && decreasing (p2 :: p3 :: points)) in H.
  apply andb_true_iff in H. destruct H as [H1 H2].
  destruct i as [| i].
  - exact H1.
  - apply (IH H2 i). simpl in *. lia.
Qed.

Lemma extractCycles_state_after (series : list num) :
  extractCycles series
  = drain (fst (state_after (length (reversals series)) series))
          (snd (state_after (length (reversals series)) series)).
Proof.
  unfold extractCycles, state_after. rewrite firstn_all.
  destruct (fold_left push_point (reversals series) ([], [])). reflexivity.
Qed.

(** C10.  Whenever the extractor is about to push the next reversal, that is
    after any number [n] of reversals has gone through the closure loop, every
    three consecutive stack points [p_i; p_i+1; p_i+2] (bottom to top) satisfy
    [|p_i+2 - p_i+1| < |p_i+1 - p_i|]: the consecutive ranges of the stack
    decrease strictly from bottom to top. *)
Theorem stack_ranges_decreasing (series : list num) (n : nat) :
  decreasing (fst (state_after n series)) = true /\
  forall i,
    i + 2 < length (fst (state_after n series)) ->
    ltb (gap (point_at (fst (state_after n series)) (i + 1))
             (point_at (fst (state_after n series)) (i + 2)))
        (gap (point_at (fst (state_after n series)) i)
             (point_at (fst (state_after n series)) (i + 1))) = true.
Proof.
  assert (H : decreasing (fst (state_after n series)) = true).
  { unfold state_after. apply fold_push_decreasing. reflexivity. }
  split; [exact H | apply decreasing_nth, H].
Qed.

Lemma stack_ranges_decreasing_witness :
  ltb (gap (point_at (fst (state_after 3 sig1)) (0 + 1))
           (point_at (fst (state_after 3 sig1)) (0 + 2)))
      (gap (point_at (fst (state_after 3 sig1)) 0)
           (point_at (fst (state_after 3 sig1)) (0 + 1))) = true.
Proof.
  apply (stack_ranges_decreasing sig1 3). vm_compute. lia.
Defined.

(** ** Conservation of half cycles *)

Lemma halves_0 : zero = halves 0.
Proof. unfold zero, of_Z, halves. f_equal. apply Qc_is_canon. reflexivity. Qed.

Lemma Q2Qc_eq (a b : Q) : a == b -> Q2Qc a = Q2Qc b.
Proof. intros H. apply Q2Qc_eq_iff. exact H. Qed.

Lemma Q2Qc_plus (a b : Q) : (Q2Qc a + Q2Qc b)%Qc = Q2Qc (a + b).
Proof.
  unfold Qcplus. apply Q2Qc_eq. cbn [this Q2Qc]. rewrite !Qred_correct. reflexivity.
Qed.

Lemma Q2Qc_mult (a b : Q) : (Q2Qc a * Q2Qc b)%Qc = Q2Qc (a * b).
Proof.
  unfold Qcmult. apply Q2Qc_eq. cbn [this Q2Qc]. rewrite !Qred_correct. reflexivity.
Qed.

Lemma halves_add_half (m : Z) : add (halves m) half = halves (m + 1).
Proof.
  unfold halves, half, add. f_equal. rewrite Q2Qc_plus. apply Q2Qc_eq.
  unfold Qeq, Qplus. cbn -[Z.mul Z.add]. lia.
Qed.

Lemma halves_add_one (m : Z) : add (halves m) one = halves (m + 2).
Proof.
  unfold halves, one, of_Z, add. f_equal. rewrite Q2Qc_plus. apply Q2Qc_eq.
  unfold Qeq, Qplus, inject_Z. cbn -[Z.mul Z.add]. lia.
Qed.

Lemma double_halves (m : Z) : mul (of_Z 2) (halves m) = of_Z m.
Proof.
  unfold halves, of_Z, mul. f_equal. rewrite Q2Qc_mult. apply Q2Qc_eq.
  unfold Qeq, Qmult, inject_Z. cbn -[Z.mul Z.add]. lia.
Qed.

Lemma sum_count_snoc (cycles : list cycle) (c : cycle) :
  sum_count (cycles ++ [c]) = add (sum_count cycles) (count c).
Proof. unfold sum_count. rewrite fold_left_app. reflexivity. Qed.

Lemma count_formatOutput (p q : point) (c : num) : count (formatOutput p q c) = c.
Proof. destruct p, q. reflexivity. Qed.

(** The loop trades stack points for half units of count, one for one. *)
Lemma closure_conserves (points : list point) :
  forall cycles m,
    sum_count cycles = halves m ->
    exists m',
      sum_count (snd (closure points cycles)) = halves m' /\
      (m' + Z.of_nat (length (fst (closure points cycles)))
       = m + Z.of_nat (length points))%Z /\
      (1 <= length points -> 1 <= length (fst (closure points cycles))).
Proof.
  induction points as [points IH] using stack_ind.
  intros cycles m Hm.
  destruct (le_lt_dec 3 (length points)) as [Hle | Hlt].
  2: { rewrite closure_short by exact Hlt. exists m. simpl. auto. }
  destruct (snoc3_inv points Hle) as (below & p1 & p2 & p3 & ->).
  rewrite closure_snoc3.
  destruct (ltb (gap p2 p3) (gap p1 p2)).
  { exists m. simpl. auto. }
  destruct below as [| b below].
  - rewrite closure_short by (simpl; lia).
    exists (m + 1)%Z. simpl fst; simpl snd.
    rewrite sum_count_snoc, count_formatOutput, Hm, halves_add_half.
    simpl. repeat split; lia.
  - destruct (IH ((b :: below) ++ [p3])
                (ltac:(rewrite !length_app; simpl; lia))
                (cycles ++ [formatOutput p1 p2 one]) (m + 2)%Z)
      as (m' & Hs & Hl & Hpos).
    { rewrite sum_count_snoc, count_formatOutput, Hm. apply halves_add_one. }
    exists m'. split; [exact Hs |]. split.
    + rewrite Hl, !length_app. simpl. lia.
    + intros _. apply Hpos. rewrite length_app. simpl. lia.
Qed.

Lemma fold_push_conserves (rs : list point) :
  forall st m,
    sum_count (snd st) = halves m ->
    exists m',
      sum_count (snd (fold_left push_point rs st)) = halves m' /\
      (m' + Z.of_nat (length (fst (fold_left push_point rs st)))
       = m + Z.of_nat (length (fst st)) + Z.of_nat (length rs))%Z /\
      (1 <= length (fst st) + length rs ->
       1 <= length (fst (fold_left push_point rs st))).
Proof.
  induction rs as [| r rs IH]; intros st m Hm.
  - exists m. simpl. split; [exact Hm |]. split; lia.
  - simpl fold_left.
    destruct (closure_conserves (fst st ++ [r]) (snd st) m Hm)
      as (m1 & Hs1 & Hl1 & Hp1).
    destruct (IH (push_point st r) m1 Hs1) as (m' & Hs & Hl & Hp).
    unfold push_point in *.
    rewrite length_app in Hl1, Hp1. simpl in Hl1, Hp1.
    exists m'. split; [exact Hs |]. split.
    + simpl length. lia.
    + intros _. apply Hp. lia.
Qed.

Lemma drain_conserves (points : list point) :
  forall cycles m,
    sum_count cycles = halves m ->
    sum_count (drain points cycles)
    = halves (m + Z.of_nat (length points - 1)).
Proof.
  induction points as [| p0 points IH]; intros cycles m Hm.
  - simpl. rewrite Z.add_0_r. exact Hm.
  - destruct points as [| p1 points].
    + simpl. rewrite Z.add_0_r. exact Hm.
    + change (drain (p0 :: p1 :: points) cycles)
        with (drain (p1 :: points) (cycles ++ [formatOutput p0 p1 half])).
      rewrite (IH _ (m + 1)%Z).
      * f_equal. simpl length. lia.
      * rewrite sum_count_snoc, count_formatOutput, Hm. apply halves_add_half.
Qed.

Lemma scan_length (rest : list num) :
  forall i x d result, length result <= length (snd (scan i rest x d result)).
Proof.
  induction rest as [| y rest IH]; intros i x d result; cbn [scan].
  - simpl. lia.
  - destruct (strict_eq (Number y) x); [apply IH |].
    etransitivity; [| apply IH].
    destruct (ltb _ _); [rewrite length_app; simpl; lia | lia].
Qed.

Lemma reversals_length (series : list num) : 2 <= length (reversals series).
Proof.
  unfold reversals.
  pose proof (scan_length (skipn 1 series) 1%Z (series_at series 1)
                (sub (to_number (series_at series 1)) (to_number (series_at series 0)))
                [(0%Z, series_at series 0)]) as H.
  destruct (scan _ _ _ _ _) as [x' result'].
  rewrite length_app. simpl in *. lia.
Qed.

Lemma sum_count_extractCycles (series : list num) :
  sum_count (extractCycles series)
  = halves (Z.of_nat (length (reversals series)) - 1).
Proof.
  unfold extractCycles.
  destruct (fold_push_conserves (reversals series) ([], []) 0%Z halves_0)
    as (m' & Hs & Hl & Hp).
  pose proof (reversals_length series) as Hlen.
  destruct (fold_left push_point (reversals series) ([], [])) as [points cycles].
  simpl in *.
  rewrite (drain_conserves points cycles m' Hs).
  f_equal. specialize (Hp ltac:(lia)). lia.
Qed.

(** C1, as the code has it.  For every input signal, the sum of [count] over
    the cycles emitted by [extractCycles] is half of (number of reversals minus
    one): every reversal but the last one left on the stack closes one half
    unit of count, a half cycle taking one point off the stack and a full
    cycle two. *)
Theorem count_conservation (series : list num) :
  mul (of_Z 2) (sum_count (extractCycles series))
  = of_Z (Z.of_nat (length (reversals series)) - 1).
Proof.
  rewrite sum_count_extractCycles. apply double_halves.
Qed.

(** The sum of [count] is not (number of reversals minus one) itself: on
    [0, 5, 2, 8, 12] there are four reversals and the counts add up to 1.5. *)
Lemma count_sum_is_not_reversals_minus_one :
  length (reversals sig1) = 4 /\
  sum_count (extractCycles sig1) = Fin (Q2Qc (3 # 2)) /\
  sum_count (extractCycles sig1)
  <> of_Z (Z.of_nat (length (reversals sig1)) - 1).
Proof.
  split; [reflexivity |]. split; [canon_eq |].
  intros H. vm_compute in H. discriminate H.
Qed.

(** ** Sums *)

Lemma add_comm (x y : num) : add x y = add y x.
Proof.
  destruct x, y; simpl; try reflexivity. f_equal. ring.
Qed.

Lemma add_assoc (x y z : num) : add x (add y z) = add (add x y) z.
Proof.
  destruct x, y, z; simpl; try reflexivity. f_equal. ring.
Qed.

Lemma zero_Fin : zero = Fin 0%Qc.
Proof. reflexivity. Qed.

Lemma add_zero_l (x : num) : add zero x = x.
Proof.
  rewrite zero_Fin. destruct x; simpl; try reflexivity. f_equal. ring.
Qed.

Lemma add_zero_r (x : num) : add x zero = x.
Proof. rewrite add_comm. apply add_zero_l. Qed.

Lemma add_finite (x y : num) :
  is_finite x = true -> is_finite y = true -> is_finite (add x y) = true.
Proof. destruct x, y; simpl; congruence. Qed.

Lemma fold_add_shift (l : list num) (a : num) :
  fold_left add l a = add a (fold_left add l zero).
Proof.
  revert a. induction l as [| x l IH]; intros a; cbn [fold_left].
  - symmetry. apply add_zero_r.
  - rewrite (IH (add a x)), (IH (add zero x)), add_zero_l.
    symmetry. apply add_assoc.
Qed.

Lemma sum_list_cons (x : num) (l : list num) :
  sum_list (x :: l) = add x (sum_list l).
Proof.
  unfold sum_list. cbn [fold_left]. rewrite fold_add_shift, add_zero_l. reflexivity.
Qed.

Lemma sum_list_app (l l' : list num) :
  sum_list (l ++ l') = add (sum_list l) (sum_list l').
Proof.
  induction l as [| x l IH]; simpl.
  - change (sum_list []) with zero. symmetry. apply add_zero_l.
  - rewrite !sum_list_cons, IH. apply add_assoc.
Qed.

Lemma sum_list_perm (l l' : list num) :
  Permutation l l' -> sum_list l = sum_list l'.
Proof.
  induction 1 as [| x l l' _ IH | x y l | l l' l'' _ IH1 _ IH2].
  - reflexivity.
  - rewrite !sum_list_cons, IH. reflexivity.
  - rewrite !sum_list_cons, !add_assoc, (add_comm y x). reflexivity.
  - congruence.
Qed.

Lemma total_cons (e : entry) (h : list entry) : total (e :: h) = add (snd e) (total h).
Proof. apply sum_list_cons. Qed.

Lemma total_app (h h' : list entry) : total (h ++ h') = add (total h) (total h').
Proof. unfold total. rewrite map_app. apply sum_list_app. Qed.

Lemma total_perm (h h' : list entry) : Permutation h h' -> total h = total h'.
Proof. intros H. apply sum_list_perm, Permutation_map, H. Qed.

Lemma sum_count_total (cycles : list cycle) :
  sum_count cycles = total (map (fun c => (rng c, count c)) cycles).
Proof.
  unfold sum_count, total, sum_list. rewrite map_map. simpl.
  generalize zero. induction cycles as [| c cycles IH]; intros a; simpl.
  - reflexivity.
  - apply IH.
Qed.

(** ** The object used as a map *)

Lemma or_zero_finite (v : num) : is_finite v = true -> or_zero (Some v) = v.
Proof.
  destruct v as [| | | q]; simpl; try discriminate. intros _.
  destruct (Qceqb q 0%Qc) eqn:E; simpl; [| reflexivity].
  apply Qceqb_eq in E. subst q. reflexivity.
Qed.


Lemma get_Some_In (counts : list entry) (k v : num) :
  get counts k = Some v -> In (k, v) counts.
Proof.
  induction counts as [| [k' v'] counts IH]; simpl; [discriminate |].
  destruct (key_eqb k' k) eqn:E.
  - apply key_eqb_eq in E. intros [= ->]. left. congruence.
  - intros H. right. apply IH, H.
Qed.

Lemma set_absent (counts : list entry) (k v : num) :
  get counts k = None -> set counts k v = counts ++ [(k, v)].
Proof.
  induction counts as [| [k' v'] counts IH]; simpl; [reflexivity |].
  destruct (key_eqb k' k); [discriminate |].
  intros H. rewrite IH by exact H. reflexivity.
Qed.

Lemma set_present (counts : list entry) (k v w : num) :
  get counts k = Some w ->
  exists l1 l2, counts = l1 ++ (k, w) :: l2 /\ set counts k v = l1 ++ (k, v) :: l2.
Proof.
  induction counts as [| [k' v'] counts IH]; simpl; [discriminate |].
  destruct (key_eqb k' k) eqn:E.
  - apply key_eqb_eq in E. subst k'. intros [= ->].
    exists [], counts. split; reflexivity.
  - intros H. destruct (IH H) as (l1 & l2 & -> & ->).
    exists ((k', v') :: l1), l2. split; reflexivity.
Qed.





(** With finite counts, [counts[k] = (counts[k] || 0) + c] adds [c] to the
    total and keeps the counts finite. *)
Lemma bump_total (counts : list entry) (k c : num) :
  finite_counts counts -> is_finite c = true ->
  total (bump counts k c) = add (total counts) c /\ finite_counts (bump counts k c).
Proof.
  intros Hf Hc. unfold bump. destruct (get counts k) as [w |] eqn:E.
  - assert (Hw : is_finite w = true).
    { apply get_Some_In in E. unfold finite_counts in Hf.
      rewrite Forall_forall in Hf. apply (Hf (k, w) E). }
    destruct (set_present counts k (add (or_zero (Some w)) c) w E)
      as (l1 & l2 & -> & ->).
    rewrite or_zero_finite by exact Hw. split.
    + rewrite !total_app, !total_cons. simpl.
      rewrite <- !add_assoc. f_equal.
      rewrite (add_comm (total l2) c). rewrite !add_assoc. reflexivity.
    + unfold finite_counts in *. rewrite Forall_app in *.
      destruct Hf as [H1 H2]. split; [exact H1 |].
      inversion H2; subst. constructor; [| assumption].
      simpl. apply add_finite; assumption.
  - rewrite set_absent by exact E. split.
    + rewrite total_app, total_cons. cbn [snd or_zero].
      change (total []) with zero.
      rewrite add_zero_l, add_zero_r. reflexivity.
    + unfold finite_counts in *. rewrite Forall_app. split; [exact Hf |].
      constructor; [| constructor]. cbn [snd or_zero].
      rewrite add_zero_l. exact Hc.
Qed.

(** ** Sorting the entries *)

Lemma insert_by_perm {A : Type} (cmp : A -> A -> num) (x : A) (l : list A) :
  Permutation (insert_by cmp x l) (x :: l).
Proof.
  induction l as [| y l IH]; simpl.
  - apply Permutation_refl.
  - destruct (ltb (cmp x y) zero).
    + apply Permutation_refl.
    + rewrite IH. apply perm_swap.
Qed.

Lemma fold_insert_perm {A : Type} (cmp : A -> A -> num) (l : list A) :
  forall acc,
    Permutation (fold_left (fun acc x => insert_by cmp x acc) l acc) (acc ++ l).
Proof.
  induction l as [| x l IH]; intros acc; simpl.
  - rewrite app_nil_r. apply Permutation_refl.
  - rewrite IH, insert_by_perm. apply Permutation_middle.
Qed.

Lemma sort_by_perm {A : Type} (cmp : A -> A -> num) (l : list A) :
  Permutation (sort_by cmp l) l.
Proof. apply (fold_insert_perm cmp l []). Qed.

Lemma filter_split_perm {A : Type} (f : A -> bool) (l : list A) :
  Permutation (filter f l ++ filter (fun x => negb (f x)) l) l.
Proof.
  induction l as [| x l IH]; simpl.
  - apply Permutation_refl.
  - destruct (f x); simpl.
    + apply perm_skip, IH.
    + rewrite <- Permutation_middle. apply perm_skip, IH.
Qed.

Lemma Object_entries_perm (counts : list entry) :
  Permutation (Object_entries counts) counts.
Proof.
  unfold Object_entries. rewrite sort_by_perm. apply filter_split_perm.
Qed.

Lemma sorted_entries_perm (counts : list entry) :
  Permutation (sort_by by_key (Object_entries counts)) counts.
Proof. rewrite sort_by_perm. apply Object_entries_perm. Qed.







(** ** Integers among the numbers *)




Lemma add_of_Z (a b : Z) : add (of_Z a) (of_Z b) = of_Z (a + b).
Proof.
  unfold of_Z, add. f_equal. rewrite Q2Qc_plus, inject_Z_plus. reflexivity.
Qed.




(** ** The binning loop *)

Lemma bin_step_eq (b : num) (counts : list entry) (nmax : num) (c : num * num) :
  bin_step b (counts, nmax) c
  = (bump counts (bucket_key b c) (snd c), max (bucket_index b c) nmax).
Proof. destruct c. reflexivity. Qed.




Lemma raw_fold_total (cycles : list (num * num)) :
  finite_counts cycles ->
  forall counts,
    finite_counts counts ->
    total (fold_left raw_step cycles counts) = add (total counts) (total cycles).
Proof.
  intros Hfin.
  induction Hfin as [| c cycles Hc Hfin IH]; intros counts Hf.
  - simpl. change (total []) with zero. rewrite add_zero_r. reflexivity.
  - cbn [fold_left].
    assert (Hstep : raw_step counts c = bump counts (fst c) (snd c))
      by (destruct c; reflexivity).
    rewrite Hstep.
    destruct (bump_total counts (fst c) (snd c) Hf Hc) as [Ht Hf'].
    rewrite (IH _ Hf'), Ht, total_cons. symmetry. apply add_assoc.
Qed.


(** ** The densification loop *)

Lemma densify_more_fuel (nmax b : num) (fuel : nat) :
  forall i counts r,
    densify fuel i nmax b counts = Some r ->
    forall fuel', fuel <= fuel' -> densify fuel' i nmax b counts = Some r.
Proof.
  induction fuel as [| fuel IH]; intros i counts r H fuel' Hle.
  - simpl in H. destruct (ltb i nmax) eqn:E; [discriminate |].
    destruct fuel'; simpl; rewrite E; exact H.
  - destruct fuel' as [| fuel']; [lia |].
    simpl in *. destruct (ltb i nmax); [| exact H].
    apply IH; [exact H | lia].
Qed.

Lemma densify_stop (fuel : nat) (i nmax b : num) (counts : list entry) :
  ltb i nmax = false -> densify fuel i nmax b counts = Some counts.
Proof. intros E. destruct fuel; simpl; rewrite E; reflexivity. Qed.

Lemma densify_step (fuel : nat) (i nmax b : num) (counts : list entry) :
  ltb i nmax = true ->
  densify (S fuel) i nmax b counts
  = densify fuel (add i one) nmax b (touch counts (mul i b)).
Proof. intros E. simpl. rewrite E. reflexivity. Qed.


(** A bound that is Infinity is never reached: the loop does not end. *)
Lemma densify_diverges (b : num) (fuel : nat) :
  forall i counts, densify fuel (of_Z i) PInf b counts = None.
Proof.
  induction fuel as [| fuel IH]; intros i counts; [reflexivity |].
  rewrite densify_step by reflexivity.
  change one with (of_Z 1). rewrite add_of_Z. apply IH.
Qed.

(** ** The histogram *)





(** What the aggregation without binning builds. *)
Lemma aggregate_raw (cycles : list (num * num)) (fuel : nat) :
  aggregate fuel cycles None
  = Some (sort_by by_key (Object_entries (fold_left raw_step cycles []))).
Proof. reflexivity. Qed.






(** ** Bin widths below zero *)

(** With the bin width -5 the cycles of [0, 5, 2, 8, 12] are aggregated, not
    rejected: their ranges 3 and 12 land in the buckets 0 and 10. *)
Lemma negative_bin_width_not_rejected :
  aggregate 0 pairs1 (Some (of_Z (-5))) = Some [(of_Z 0, one); (of_Z 10, half)].
Proof. canon_eq. Qed.

(** A bin width of zero is not rejected either: with ranges above zero the
    bound [nmax] is Infinity and the densification loop never ends. *)
Lemma bucket_index_zero_width (c : num * num) :
  is_finite (fst c) = true -> ltb zero (fst c) = true ->
  bucket_index zero c = PInf.
Proof.
  destruct c as [[| | | r] cnt]; try discriminate. cbn [fst]. intros _ Hp.
  change (Qcltb 0%Qc r = true) in Hp.
  unfold bucket_index, div, zero, of_Z. cbn [fst].
  change (Qceqb (Q2Qc (inject_Z 0)) 0%Qc) with true. cbv iota.
  rewrite Hp. destruct (Qceqb r 0%Qc) eqn:E; [| reflexivity].
  apply Qceqb_eq in E. subst r. discriminate Hp.
Qed.

Lemma bin_fold_zero_width (cycles : list (num * num)) :
  finite_keys cycles -> positive_ranges cycles ->
  forall counts, snd (fold_left (bin_step zero) cycles (counts, PInf)) = PInf.
Proof.
  intros Hf Hp. revert Hp.
  induction Hf as [| c cycles Hc Hf IH]; intros Hp counts; [reflexivity |].
  inversion Hp as [| c' cycles' Hpc Hp']; subst.
  cbn [fold_left].
  rewrite bin_step_eq, (bucket_index_zero_width c Hc Hpc).
  apply IH. exact Hp'.
Qed.

Lemma zero_bin_width_diverges (c : num * num) (cycles : list (num * num)) (fuel : nat) :
  finite_keys (c :: cycles) -> positive_ranges (c :: cycles) ->
  aggregate fuel (c :: cycles) (Some zero) = None.
Proof.
  intros Hf Hp.
  inversion Hf as [| c' l' Hfc Hf']; subst.
  inversion Hp as [| c' l' Hpc Hp']; subst.
  unfold aggregate. cbn [fold_left].
  rewrite bin_step_eq, (bucket_index_zero_width c Hfc Hpc).
  change (max PInf zero) with PInf.
  generalize (bump [] (bucket_key zero c) (snd c)). intros counts0.
  pose proof (bin_fold_zero_width cycles Hf' Hp' counts0) as H.
  destruct (fold_left (bin_step zero) cycles (counts0, PInf)) as [counts nmax].
  cbn [snd] in H. subst nmax. change one with (of_Z 1).
  rewrite densify_diverges. reflexivity.
Qed.

(** ** What the extraction preserves *)

Section Preservation.

Variable P : point -> Prop.
Variable Q : cycle -> Prop.
Hypothesis formatOutput_PQ :
  forall p q c, P p -> P q -> c = half \/ c = one -> Q (formatOutput p q c).

Lemma closure_preserves (points : list point) :
  forall cycles,
    Forall P points -> Forall Q cycles ->
    Forall P (fst (closure points cycles)) /\ Forall Q (snd (closure points cycles)).
Proof.
  induction points as [points IH] using stack_ind.
  intros cycles HP HQ.
  destruct (le_lt_dec 3 (length points)) as [Hle | Hlt].
  2: { rewrite closure_short by exact Hlt. split; assumption. }
  destruct (snoc3_inv points Hle) as (below & p1 & p2 & p3 & ->).
  rewrite closure_snoc3.
  destruct (ltb (gap p2 p3) (gap p1 p2)); [split; assumption |].
  apply Forall_app in HP. destruct HP as [Hb H3].
  inversion H3 as [| ? ? Hp1 H2]; subst.
  inversion H2 as [| ? ? Hp2 H1]; subst.
  assert (HQ' : forall c, c = half \/ c = one ->
                          Forall Q (cycles ++ [formatOutput p1 p2 c])).
  { intros c Hc. apply Forall_app. split; [exact HQ |].
    constructor; [| constructor]. apply formatOutput_PQ; assumption. }
  destruct below as [| b below].
  - rewrite closure_short by (simpl; lia). split; [exact H2 | apply HQ'; auto].
  - apply IH.
    + rewrite !length_app. simpl. lia.
    + apply Forall_app. split; [exact Hb | exact H1].
    + apply HQ'. auto.
Qed.

Lemma fold_push_preserves (rs : list point) :
  forall st,
    Forall P rs -> Forall P (fst st) -> Forall Q (snd st) ->
    Forall P (fst (fold_left push_point rs st)) /\
    Forall Q (snd (fold_left push_point rs st)).
Proof.
  induction rs as [| r rs IH]; intros st Hrs HP HQ; [split; assumption |].
  inversion Hrs as [| ? ? Hr Hrs']; subst. cbn [fold_left].
  destruct (closure_preserves (fst st ++ [r]) (snd st)) as [HP' HQ'].
  { apply Forall_app. split; [exact HP | constructor; [exact Hr | constructor]]. }
  { exact HQ. }
  apply IH; assumption.
Qed.

Lemma drain_preserves (points : list point) :
  forall cycles, Forall P points -> Forall Q cycles -> Forall Q (drain points cycles).
Proof.
  induction points as [| p0 points IH]; intros cycles HP HQ; [exact HQ |].
  destruct points as [| p1 points]; [exact HQ |].
  change (drain (p0 :: p1 :: points) cycles)
    with (drain (p1 :: points) (cycles ++ [formatOutput p0 p1 half])).
  inversion HP as [| ? ? Hp0 HP']; subst.
  apply IH; [exact HP' |].
  apply Forall_app. split; [exact HQ |].
  constructor; [| constructor].
  inversion HP'; subst. apply formatOutput_PQ; auto.
Qed.

Lemma extractCycles_preserves (series : list num) :
  Forall P (reversals series) -> Forall Q (extractCycles series).
Proof.
  intros H. unfold extractCycles.
  destruct (fold_push_preserves (reversals series) ([], []) H (Forall_nil _) (Forall_nil _))
    as [HP HQ].
  destruct (fold_left push_point (reversals series) ([], [])) as [points cycles].
  apply drain_preserves; assumption.
Qed.

End Preservation.

Lemma extractCycles_finite_count (series : list num) :
  Forall finite_count (extractCycles series).
Proof.
  apply (extractCycles_preserves (fun _ => True)).
  - intros p q c _ _ Hc. unfold finite_count. rewrite count_formatOutput.
    destruct Hc as [-> | ->]; reflexivity.
  - apply Forall_forall. intros. exact I.
Qed.



(** ** Signals shorter than two samples *)

Lemma add_NaN_r (x : num) : add x NaN = NaN.
Proof. destruct x; reflexivity. Qed.

Lemma extractCycles_short (series : list num) :
  length series < 2 ->
  map (fun c => (rng c, count c)) (extractCycles series) = [(NaN, half)].
Proof.
  intros H. destruct series as [| a [| b rest]]; simpl in H; try lia.
  - reflexivity.
  - unfold extractCycles, reversals. cbn [series_at nth_error skipn scan length].
    cbn [fold_left fst snd app]. unfold push_point. cbn [fst snd app].
    rewrite (closure_short [_] _) by (simpl; lia).
    cbn [fst snd app].
    rewrite closure_short by (simpl; lia).
    cbn [drain app map formatOutput rng count to_number].
    unfold sub. cbn [neg]. rewrite add_NaN_r. reflexivity.
Qed.

Lemma aggregate_NaN (fuel : nat) (binsize : option num) :
  aggregate fuel [(NaN, half)] binsize = Some [(NaN, half)].
Proof.
  destruct binsize as [b |].
  - unfold aggregate. cbn [fold_left]. rewrite bin_step_eq.
    assert (Hidx : bucket_index b (NaN, half) = NaN) by reflexivity.
    unfold bucket_key. rewrite Hidx.
    change (mul NaN b) with NaN. change (max NaN zero) with NaN.
    rewrite densify_stop by reflexivity.
    unfold bump. cbn [get or_zero set snd]. rewrite add_zero_l. reflexivity.
  - rewrite aggregate_raw. cbn [fold_left raw_step]. unfold bump.
    cbn [get or_zero set]. rewrite add_zero_l. reflexivity.
Qed.

Lemma countCycles_short (series : list num) (fuel : nat) (binsize : option num) :
  length series < 2 -> countCycles fuel series binsize = Some [(NaN, half)].
Proof.
  intros H. unfold countCycles. rewrite extractCycles_short by exact H.
  apply aggregate_NaN.
Qed.

(** ** Validation *)

(** C2, as the code has it.  The core validates nothing.  For every input
    signal of length below 2 it returns the one-entry histogram [(NaN, 0.5)],
    for every bin width; and for every input signal that contains a
    non-finite value (as for any other one) the core without binning returns a
    histogram, whose counts add up to half of (number of reversals minus 1):
    the non-finite values go through the comparisons silently. *)
Theorem no_input_validation (series : list num) (fuel : nat) :
  (length series < 2 ->
   forall binsize, countCycles fuel series binsize = Some [(NaN, half)]) /\
  ((exists x, In x series /\ is_finite x = false) ->
   exists h,
     countCycles fuel series None = Some h /\
     total h = halves (Z.of_nat (length (reversals series)) - 1)).
Proof.
  split.
  - intros H binsize. apply countCycles_short. exact H.
  - intros _. unfold countCycles. rewrite aggregate_raw.
    eexists. split; [reflexivity |].
    rewrite (total_perm _ _ (sorted_entries_perm _)).
    rewrite raw_fold_total.
    + rewrite add_zero_l, <- sum_count_total. apply sum_count_extractCycles.
    + unfold finite_counts. rewrite Forall_map.
      eapply Forall_impl; [| apply extractCycles_finite_count].
      intros c Hc. exact Hc.
    + constructor.
Qed.

Lemma no_input_validation_witness :
  (forall binsize, countCycles 0 [of_Z 7] binsize = Some [(NaN, half)]) /\
  (exists h,
     countCycles 0 [of_Z 0; of_Z 5; NaN; PInf] None = Some h /\
     total h = halves (Z.of_nat (length (reversals [of_Z 0; of_Z 5; NaN; PInf])) - 1)).
Proof.
  split.
  - apply (no_input_validation [of_Z 7] 0). simpl. lia.
  - apply (no_input_validation [of_Z 0; of_Z 5; NaN; PInf] 0).
    exists NaN. split; [right; right; left; reflexivity | reflexivity].
Defined.

(** Signals that are too short or hold a non-finite value are not rejected:
    the empty signal, a signal with a NaN and a signal with an Infinity each
    come back with a histogram. *)
Lemma invalid_signals_return :
  countCycles 0 [] None = Some [(NaN, half)] /\
  countCycles 0 [of_Z 0; NaN] None = Some [(NaN, half)] /\
  countCycles 0 [of_Z 0; PInf] None = Some [(PInf, half)].
Proof. repeat split; canon_eq. Qed.

(** ** Termination *)

Lemma aggregate_more_fuel (fuel fuel' : nat) (cycles : list (num * num))
  (binsize : option num) (h : list entry) :
  aggregate fuel cycles binsize = Some h -> fuel <= fuel' ->
  aggregate fuel' cycles binsize = Some h.
Proof.
  destruct binsize as [b |]; [| intros H _; exact H].
  unfold aggregate.
  destruct (fold_left (bin_step b) cycles ([], zero)) as [counts nmax].
  destruct (densify fuel one nmax b counts) as [counts' |] eqn:E; [| discriminate].
  intros H Hle. rewrite (densify_more_fuel _ _ _ _ _ _ E fuel' Hle). exact H.
Qed.

(** With the bin width 0 the pipeline does not end on [0, 5, 2, 8, 12]. *)
Lemma zero_bin_width_hangs (fuel : nat) : countCycles fuel sig1 (Some zero) = None.
Proof.
  unfold countCycles.
  assert (H : map (fun c => (rng c, count c)) (extractCycles sig1) = pairs1)
    by canon_eq.
  rewrite H. apply zero_bin_width_diverges; repeat constructor.
Qed.

(** ** The two scenarios *)

Lemma countCycles_more_fuel (fuel fuel' : nat) (series : list num)
  (binsize : option num) (h : list entry) :
  countCycles fuel series binsize = Some h -> fuel <= fuel' ->
  countCycles fuel' series binsize = Some h.
Proof. apply aggregate_more_fuel. Qed.

(** C4.  The signal [0, 5, 2, 8, 12]: its reversals, its two cycles, its
    histogram without binning and its histogram with the bin width 5 (the
    densification loop takes two turns). *)
Theorem scenario_0_5_2_8_12 :
  reversals sig1 = [pt 0 0; pt 2 5; pt 3 2; pt 4 12] /\
  extractCycles sig1
  = [mkCycle (of_Z 3) (Fin (Q2Qc (7 # 2))) one 2 3;
     mkCycle (of_Z 12) (of_Z 6) half 0 4] /\
  (forall fuel, countCycles fuel sig1 None = Some [(of_Z 3, one); (of_Z 12, half)]) /\
  (forall fuel,
     countCycles (2 + fuel) sig1 (Some (of_Z 5))
     = Some [(of_Z 5, one); (of_Z 10, zero); (of_Z 15, half)]).
Proof.
  split; [canon_eq |]. split; [canon_eq |]. split.
  - intros fuel. apply (countCycles_more_fuel 0); [canon_eq | lia].
  - intros fuel. apply (countCycles_more_fuel 2); [canon_eq | lia].
Qed.

(** C6.  The signal [0, 5, 0]: the last sample is appended although the scan
    has just emitted a reversal at the same index 2, so that two neighbouring
    reversals share the index 2 with the values 5 and 0; the extraction emits
    two half cycles of range 5; the histogram without binning is [(5, 1.0)]. *)
Theorem scenario_0_5_0 :
  reversals sig2 = [pt 0 0; pt 2 5; pt 2 0] /\
  extractCycles sig2
  = [mkCycle (of_Z 5) (Fin (Q2Qc (5 # 2))) half 0 2;
     mkCycle (of_Z 5) (Fin (Q2Qc (5 # 2))) half 2 2] /\
  (forall fuel, countCycles fuel sig2 None = Some [(of_Z 5, one)]).
Proof.
  split; [canon_eq |]. split; [canon_eq |].
  intros fuel. apply (countCycles_more_fuel 0); [canon_eq | lia].
Qed.

(** * Properties of the code over binary64 *)

(** ** Facts about binary64 *)

Section Binary64_order.

Import SpecFloat.


Lemma SFcompare_trans (x y z : spec_float) :
  SFcompare x y = Some Lt -> SFcompare y z = Some Lt -> SFcompare x z = Some Lt.
Proof.
  destruct x as [sx | sx | | sx mx ex], y as [sy | sy | | sy my ey],
           z as [sz | sz | | sz mz ez]; cbn;
    try discriminate; try reflexivity;
    repeat match goal with s : bool |- _ => destruct s end;
    try discriminate; try reflexivity;
    change (Pos.compare_cont Eq) with Pos.compare;
    intros H1 H2; f_equal;
    destruct (Z.compare_spec ex ey), (Z.compare_spec ey ez), (Z.compare_spec ex ez);
    try discriminate; try lia; try reflexivity; subst;
    destruct (Pos.compare_spec mx my), (Pos.compare_spec my mz),
             (Pos.compare_spec mx mz);
    cbn in *; try discriminate; try lia; try reflexivity.
Qed.



End Binary64_order.

Section Binary64_compare.

Import PrimFloat SpecFloat FloatOps FloatAxioms.

Lemma ltb_compare (a b : float) :
  PrimFloat.ltb a b = true <-> SFcompare (Prim2SF a) (Prim2SF b) = Some Lt.
Proof.
  rewrite ltb_spec. unfold SFltb.
  destruct (SFcompare (Prim2SF a) (Prim2SF b)) as [[] |]; split; congruence.
Qed.




Lemma float_ltb_trans (a b c : float) :
  PrimFloat.ltb a b = true -> PrimFloat.ltb b c = true -> PrimFloat.ltb a c = true.
Proof. rewrite !ltb_compare. apply SFcompare_trans. Qed.



Lemma Prim2SF_zero : Prim2SF zero = S754_zero false.
Proof. reflexivity. Qed.




End Binary64_compare.

Section Binary64_rounding.

Import SpecFloat FloatOps.
Local Open Scope Z_scope.

Lemma digits2_log2 (p : positive) : Zpos (digits2_pos p) = Z.log2 (Zpos p) + 1.
Proof.
  assert (H : forall q, digits2_pos q = Pos.size q)
    by (induction q as [q IH | q IH |]; cbn; congruence).
  rewrite H. destruct p as [p | p |]; cbn; try reflexivity;
    rewrite Pos.add_1_r; reflexivity.
Qed.

Lemma digits2_bounds (p : positive) :
  2 ^ (Zpos (digits2_pos p) - 1) <= Zpos p < 2 ^ Zpos (digits2_pos p).
Proof.
  rewrite digits2_log2. replace (Z.log2 (Zpos p) + 1 - 1) with (Z.log2 (Zpos p)) by lia.
  replace (Z.log2 (Zpos p) + 1) with (Z.succ (Z.log2 (Zpos p))) by lia.
  apply Z.log2_spec. lia.
Qed.

Lemma iter_pos_iter {A : Type} (f : A -> A) (n : positive) :
  forall x, iter_pos f n x = Pos.iter f x n.
Proof.
  induction n as [n IH | n IH |]; intros x; cbn; try reflexivity.
  - rewrite !IH, !Pos.iter_swap. reflexivity.
  - rewrite !IH. reflexivity.
Qed.

Lemma shr_1_m (x : shr_record) :
  0 <= shr_m x -> shr_m (shr_1 x) = shr_m x / 2.
Proof.
  destruct x as [m r s]. cbn [shr_m shr_1]. intros H.
  destruct m as [| [p | p |] | p]; cbn [shr_m]; try lia; try reflexivity.
  - rewrite Pos2Z.inj_xI. apply Z.div_unique with (r := 1); lia.
  - rewrite Pos2Z.inj_xO. apply Z.div_unique with (r := 0); lia.
Qed.

Lemma shr_iter_m (n : positive) (x : shr_record) :
  0 <= shr_m x -> shr_m (iter_pos shr_1 n x) = shr_m x / 2 ^ Zpos n.
Proof.
  intros H. rewrite iter_pos_iter. revert x H.
  induction n as [| n IH] using Pos.peano_ind; intros x H.
  - cbn [Pos.iter]. rewrite shr_1_m by exact H. reflexivity.
  - rewrite Pos.iter_succ. rewrite shr_1_m.
    + rewrite IH by exact H. rewrite Z.div_div by lia.
      rewrite Pos2Z.inj_succ, Z.pow_succ_r by lia. f_equal. lia.
    + rewrite IH by exact H. apply Z.div_pos; lia.
Qed.

Lemma shr_m_nonneg (x : shr_record) (e n : Z) :
  0 <= shr_m x -> 0 <= shr_m (fst (shr x e n)).
Proof.
  intros H. unfold shr. destruct n as [| p | p]; cbn [fst]; try exact H.
  rewrite shr_iter_m by exact H. apply Z.div_pos; lia.
Qed.

Lemma shr_record_of_loc_m (m : Z) (l : location) : shr_m (shr_record_of_loc m l) = m.
Proof. destruct l as [| []]; reflexivity. Qed.

Lemma round_nearest_even_ge (m : Z) (l : location) : m <= round_nearest_even m l.
Proof.
  unfold round_nearest_even. destruct l as [| []]; try lia.
  destruct (Z.even m); lia.
Qed.

Lemma binary_round_aux_sign (s : bool) (m e : Z) (l : location) :
  0 <= m -> has_sign s (binary_round_aux prec emax s m e l).
Proof.
  intros Hm. unfold binary_round_aux, shr_fexp.
  destruct (shr (shr_record_of_loc m l) e
              (fexp prec emax (Zdigits2 m + e) - e)) as [mrs' e'] eqn:E1.
  assert (H1 : 0 <= shr_m mrs').
  { change mrs' with (fst (mrs', e')). rewrite <- E1. apply shr_m_nonneg.
    rewrite shr_record_of_loc_m. exact Hm. }
  set (m1 := round_nearest_even (shr_m mrs') (loc_of_shr_record mrs')).
  assert (H2 : 0 <= m1) by (pose proof (round_nearest_even_ge (shr_m mrs') (loc_of_shr_record mrs')); lia).
  destruct (shr (shr_record_of_loc m1 loc_Exact) e'
              (fexp prec emax (Zdigits2 m1 + e') - e')) as [mrs'' e''] eqn:E2.
  assert (H3 : 0 <= shr_m mrs'').
  { change mrs'' with (fst (mrs'', e'')). rewrite <- E2. apply shr_m_nonneg.
    rewrite shr_record_of_loc_m. exact H2. }
  destruct (shr_m mrs'') as [| p | p]; try lia; [reflexivity |].
  destruct (e'' <=? emax - prec); reflexivity.
Qed.





End Binary64_rounding.

Section Binary64_difference.

Import SpecFloat FloatOps.
Local Open Scope Z_scope.

Lemma iter_xO_val (m d : positive) : Zpos (Pos.iter xO m d) = Zpos m * 2 ^ Zpos d.
Proof.
  induction d as [| d IH] using Pos.peano_ind.
  - cbn [Pos.iter]. lia.
  - rewrite Pos.iter_succ, Pos2Z.inj_xO, IH, Pos2Z.inj_succ, Z.pow_succ_r by lia. lia.
Qed.

Lemma shl_align_val (m : positive) (e t : Z) :
  t <= e -> Zpos (fst (shl_align m e t)) = Zpos m * 2 ^ (e - t).
Proof.
  intros H. unfold shl_align. destruct (t - e) as [| d | d] eqn:E; cbn [fst]; try lia.
  - replace (e - t) with 0 by lia. lia.
  - rewrite iter_xO_val. f_equal. f_equal. lia.
Qed.

(** The canonical form: at most [prec] digits, the exponent not below [emin],
    and all [prec] digits above [emin]. *)
Lemma valid_finite (s : bool) (m : positive) (e : Z) :
  valid_binary prec emax (S754_finite s m e) = true ->
  emin <= e /\ Zpos (digits2_pos m) <= prec /\
  (emin < e -> Zpos (digits2_pos m) = prec).
Proof.
  cbn [valid_binary]. unfold bounded, canonical_mantissa, fexp. fold emin.
  intros H. apply andb_true_iff in H. destruct H as [H _].
  apply Z.eqb_eq in H. lia.
Qed.




End Binary64_difference.

Section Binary64_sub.

Import PrimFloat SpecFloat FloatOps FloatAxioms.


End Binary64_sub.

Section Binary64_integers.

Import SpecFloat FloatOps.
Local Open Scope Z_scope.

Lemma digits2_shift (k : positive) (t : Z) :
  0 <= t ->
  Zpos (digits2_pos (Z.to_pos (Zpos k * 2 ^ t))) = Zpos (digits2_pos k) + t.
Proof.
  intros Ht. rewrite !digits2_log2.
  assert (H : 0 < Zpos k * 2 ^ t) by (apply Z.mul_pos_pos; [lia | apply Z.pow_pos_nonneg; lia]).
  rewrite Z2Pos.id by exact H.
  rewrite Z.log2_mul_pow2 by lia. lia.
Qed.

Lemma shr_exact (a : Z) (p : positive) :
  0 <= a ->
  iter_pos shr_1 p (Build_shr_record (a * 2 ^ Zpos p) false false)
  = Build_shr_record a false false.
Proof.
  intros Ha. rewrite iter_pos_iter. revert a Ha.
  induction p as [| p IH] using Pos.peano_ind; intros a Ha.
  - cbn [Pos.iter]. change (2 ^ 1) with 2.
    destruct a as [| q | q]; try lia; [reflexivity |].
    replace (Zpos q * 2) with (Zpos q~0) by lia. reflexivity.
  - rewrite Pos.iter_succ.
    replace (a * 2 ^ Zpos (Pos.succ p)) with ((a * 2) * 2 ^ Zpos p)
      by (rewrite Pos2Z.inj_succ, Z.pow_succ_r by lia; lia).
    rewrite IH by lia.
    destruct a as [| q | q]; try lia; [reflexivity |].
    replace (Zpos q * 2) with (Zpos q~0) by lia. reflexivity.
Qed.

(** Rounding a mantissa of [prec] digits changes nothing. *)
Lemma round_aux_canonical (s : bool) (m : positive) (e : Z) :
  Zpos (digits2_pos m) = prec -> emin <= e -> e <= emax - prec ->
  binary_round_aux prec emax s (Zpos m) e loc_Exact = S754_finite s m e.
Proof.
  intros Hd He1 He2. unfold binary_round_aux, shr_fexp, fexp. fold emin.
  cbn [Zdigits2 shr_record_of_loc]. rewrite Hd.
  replace (Z.max (prec + e - prec) emin - e) with 0 by lia.
  cbn [shr shr_m loc_of_shr_record round_nearest_even Zdigits2 shr_record_of_loc].
  rewrite Hd.
  replace (Z.max (prec + e - prec) emin - e) with 0 by lia.
  cbn [shr shr_m]. apply Z.leb_le in He2. rewrite He2. reflexivity.
Qed.

(** Rounding a mantissa of [prec] digits followed by [p] zeros drops the
    zeros. *)
Lemma round_aux_exact_shift (s : bool) (a M : positive) (p : positive) (e : Z) :
  Zpos (digits2_pos a) = prec -> Zpos M = Zpos a * 2 ^ Zpos p ->
  emin <= e + Zpos p -> e + Zpos p <= emax - prec ->
  binary_round_aux prec emax s (Zpos M) e loc_Exact = S754_finite s a (e + Zpos p).
Proof.
  intros Hd HM He1 He2. unfold binary_round_aux, shr_fexp, fexp. fold emin.
  cbn [Zdigits2 shr_record_of_loc].
  assert (HdM : Zpos (digits2_pos M) = prec + Zpos p).
  { replace M with (Z.to_pos (Zpos a * 2 ^ Zpos p)) by (rewrite <- HM; reflexivity).
    rewrite digits2_shift by lia. lia. }
  rewrite HdM.
  replace (Z.max (prec + Zpos p + e - prec) emin - e) with (Zpos p) by lia.
  cbn [shr]. rewrite HM, shr_exact by lia.
  cbn [shr_m loc_of_shr_record round_nearest_even Zdigits2 shr_record_of_loc].
  rewrite Hd.
  replace (Z.max (prec + (e + Zpos p) - prec) emin - (e + Zpos p)) with 0 by lia.
  cbn [shr shr_m]. apply Z.leb_le in He2. rewrite He2. reflexivity.
Qed.

Lemma int_sf_digits (k : positive) :
  Zpos (digits2_pos k) <= prec ->
  Zpos (digits2_pos (Z.to_pos (Zpos k * 2 ^ (prec - Zpos (digits2_pos k))))) = prec.
Proof.
  intros H. rewrite digits2_shift by lia. lia.
Qed.

(** The conversion of an integer below [2^prec] is exact. *)
Lemma normalize_int (k : positive) :
  Zpos (digits2_pos k) <= prec ->
  binary_normalize prec emax (Zpos k) 0 false = int_sf k.
Proof.
  intros Hd. unfold binary_normalize, binary_round, int_sf, fexp. fold emin.
  pose proof (Pos2Z.is_pos (digits2_pos k)) as Hpos.
  replace (Z.max (Zpos (digits2_pos k) + 0 - prec) emin)
    with (Zpos (digits2_pos k) - prec) by (unfold emin, prec, emax; lia).
  unfold shl_align.
  destruct (Zpos (digits2_pos k) - prec - 0) as [| t | t] eqn:Et; try lia.
  - replace (prec - Zpos (digits2_pos k)) with 0 by lia.
    replace (Zpos (digits2_pos k) - prec) with 0 by lia.
    cbn [Z.pow]. rewrite Z.mul_1_r, Pos2Z.id.
    apply round_aux_canonical; unfold emin, prec, emax in *; lia.
  - assert (Hm : Pos.iter xO k t = Z.to_pos (Zpos k * 2 ^ (prec - Zpos (digits2_pos k)))).
    { apply Pos2Z.inj. rewrite iter_xO_val.
      rewrite Z2Pos.id by (apply Z.mul_pos_pos; [lia | apply Z.pow_pos_nonneg; lia]).
      f_equal. f_equal. lia. }
    rewrite Hm.
    apply round_aux_canonical; [apply int_sf_digits; exact Hd | |];
      unfold emin, prec, emax in *; lia.
Qed.

(** Adding one to an integer below [2^prec - 1] is exact. *)
Lemma SFadd_int_one (k : positive) :
  Zpos (digits2_pos (k + 1)) <= prec ->
  SFadd prec emax (int_sf k) (int_sf 1) = int_sf (k + 1).
Proof.
  intros Hd1.
  assert (Hd : Zpos (digits2_pos k) <= prec).
  { rewrite digits2_log2 in *. pose proof (Z.log2_le_mono (Zpos k) (Zpos (k + 1))). lia. }
  pose proof (Pos2Z.is_pos (digits2_pos k)) as Hpos.
  assert (Hk1 : 2 <= Zpos (digits2_pos (k + 1))).
  { rewrite digits2_log2. pose proof (Z.log2_le_mono 2 (Zpos (k + 1))).
    change (Z.log2 2) with 1 in H. lia. }
  unfold int_sf at 1 2. cbn [SFadd digits2_pos].
  change (Zpos 1 - prec) with (- 52). change (prec - Zpos 1) with 52.
  rewrite Z.min_r by (unfold prec in *; lia).
  rewrite !shl_align_val by (unfold prec in *; lia).
  cbn [cond_Zopp].
  rewrite !Z2Pos.id by (apply Z.mul_pos_pos; [lia | apply Z.pow_pos_nonneg; unfold prec in *; lia]).
  replace (Zpos k * 2 ^ (prec - Zpos (digits2_pos k))
           * 2 ^ (Zpos (digits2_pos k) - prec - -52))
    with (Zpos k * 2 ^ 52).
  2: { rewrite <- Z.mul_assoc, <- Z.pow_add_r by (unfold prec in *; lia).
       f_equal. f_equal. unfold prec. lia. }
  replace (-52 - -52) with 0 by lia. rewrite Z.pow_0_r, Z.mul_1_r.
  replace (Zpos k * 2 ^ 52 + 1 * 2 ^ 52) with (Zpos (k + 1) * 2 ^ 52) by lia.
  set (d := Zpos (digits2_pos (k + 1))) in *.
  set (a := Z.to_pos (Zpos (k + 1) * 2 ^ (prec - d))).
  assert (Ha : Zpos a = Zpos (k + 1) * 2 ^ (prec - d)).
  { unfold a. apply Z2Pos.id. apply Z.mul_pos_pos; [lia | apply Z.pow_pos_nonneg; lia]. }
  assert (HM : Zpos (k + 1) * 2 ^ 52 = Zpos a * 2 ^ (d - 1)).
  { rewrite Ha, <- Z.mul_assoc, <- Z.pow_add_r by lia. f_equal. f_equal. unfold prec. lia. }
  destruct (Zpos (k + 1) * 2 ^ 52) as [| M | M] eqn:EM; try lia.
  unfold binary_normalize, binary_round, fexp. fold emin.
  assert (HdM : Zpos (digits2_pos M) = d + 52).
  { replace M with (Z.to_pos (Zpos (k + 1) * 2 ^ 52)) by (rewrite EM; reflexivity).
    rewrite digits2_shift by lia. reflexivity. }
  rewrite HdM.
  replace (Z.max (d + 52 + -52 - prec) emin) with (d - prec)
    by (unfold emin, prec, emax; lia).
  unfold shl_align.
  destruct (d - prec - -52) as [| t | t] eqn:Et; try (unfold prec in *; lia).
  unfold int_sf. fold d. fold a.
  replace (d - prec) with (-52 + Zpos t) by lia.
  apply round_aux_exact_shift.
  - unfold a. apply int_sf_digits. exact Hd1.
  - rewrite HM. f_equal. f_equal. unfold prec in *. lia.
  - unfold emin, prec, emax in *. lia.
  - unfold emin, prec, emax in *. lia.
Qed.

Lemma int_sf_lt (j k : positive) :
  (j < k)%positive -> Zpos (digits2_pos k) <= prec ->
  SFcompare (int_sf j) (int_sf k) = Some Lt.
Proof.
  intros Hjk Hd.
  assert (Hdj : Zpos (digits2_pos j) <= Zpos (digits2_pos k)).
  { rewrite !digits2_log2. pose proof (Z.log2_le_mono (Zpos j) (Zpos k)). lia. }
  unfold int_sf, SFcompare. change (Pos.compare_cont Eq) with Pos.compare.
  destruct (Z.compare_spec (Zpos (digits2_pos j) - prec) (Zpos (digits2_pos k) - prec))
    as [E | E | E]; try reflexivity; try lia.
  f_equal.
  replace (Zpos (digits2_pos j)) with (Zpos (digits2_pos k)) by lia.
  match goal with |- (?A ?= ?B)%positive = Lt => change (Zpos A < Zpos B) end.
  assert (Hp : 0 < 2 ^ (prec - Zpos (digits2_pos k))) by (apply Z.pow_pos_nonneg; lia).
  rewrite !Z2Pos.id by (apply Z.mul_pos_pos; lia).
  apply Z.mul_lt_mono_pos_r; [exact Hp | lia].
Qed.

Lemma int_sf_valid (k : positive) :
  Zpos (digits2_pos k) <= prec -> valid_binary prec emax (int_sf k) = true.
Proof.
  intros Hd. unfold int_sf. cbn [valid_binary]. unfold bounded, canonical_mantissa, fexp.
  fold emin. rewrite int_sf_digits by exact Hd.
  pose proof (Pos2Z.is_pos (digits2_pos k)).
  apply andb_true_iff. split; [apply Z.eqb_eq | apply Z.leb_le];
    unfold emin, prec, emax in *; lia.
Qed.

End Binary64_integers.

Section Binary64_counting.

Import PrimFloat SpecFloat FloatOps FloatAxioms.
Local Open Scope Z_scope.

Lemma digits2_below (k : positive) :
  Zpos k < 2 ^ prec -> Zpos (digits2_pos k) <= prec.
Proof.
  intros H. rewrite digits2_log2.
  apply Z.log2_lt_pow2 in H; unfold prec in *; lia.
Qed.

Lemma of_int_normalize (z : Z) :
  0 <= z < 2 ^ 63 -> Prim2SF (B64.of_int z) = binary_normalize prec emax z 0 false.
Proof.
  intros H. unfold B64.of_int. rewrite of_uint63_spec.
  replace (Uint63Axioms.to_Z (Uint63.of_Z z)) with z; [reflexivity |].
  symmetry. rewrite Uint63.of_Z_spec. apply Z.mod_small. exact H.
Qed.

Lemma of_int_spec (k : positive) :
  Zpos k < 2 ^ prec -> Prim2SF (B64.of_int (Zpos k)) = int_sf k.
Proof.
  intros H. rewrite of_int_normalize.
  - apply normalize_int. apply digits2_below. exact H.
  - split; [lia |]. apply Z.lt_trans with (2 ^ prec); [exact H | reflexivity].
Qed.

Lemma of_int_1 : B64.of_int 1 = one.
Proof. reflexivity. Qed.

(** [i + 1] is exact on the integers below [2^53 - 1] ... *)
Lemma add_one_exact (z : Z) :
  1 <= z -> z + 1 < 2 ^ 53 ->
  PrimFloat.add (B64.of_int z) one = B64.of_int (z + 1).
Proof.
  intros H1 H2. destruct z as [| k | k]; try lia.
  apply Prim2SF_inj. rewrite add_spec.
  replace (Zpos k + 1) with (Zpos (k + 1)) in * by lia.
  rewrite !of_int_spec by (unfold prec; lia).
  change (Prim2SF one) with (int_sf 1).
  apply SFadd_int_one. apply digits2_below. unfold prec. lia.
Qed.

(** ... it reaches [2^53] from [2^53 - 1], and there it stays: [2^53 + 1] is
    rounded back to [2^53]. *)
Lemma add_one_top :
  PrimFloat.add (B64.of_int (2 ^ 53 - 1)) one = B64.of_int (2 ^ 53) /\
  PrimFloat.add (B64.of_int (2 ^ 53)) one = B64.of_int (2 ^ 53).
Proof. split; vm_compute; reflexivity. Qed.

Lemma of_int_lt (j k : Z) :
  1 <= j -> j < k -> k <= 2 ^ 53 ->
  PrimFloat.ltb (B64.of_int j) (B64.of_int k) = true.
Proof.
  intros H1 H2 H3. destruct j as [| j | j]; try lia. destruct k as [| k | k]; try lia.
  apply ltb_compare. rewrite of_int_spec by (unfold prec; lia).
  destruct (Z.eq_dec (Zpos k) (2 ^ 53)) as [E | E].
  - rewrite E. change (Prim2SF (B64.of_int (2 ^ 53)))
      with (S754_finite false 4503599627370496 1).
    unfold int_sf, SFcompare.
    pose proof (digits2_below j ltac:(unfold prec; lia)) as Hd.
    destruct (Z.compare_spec (Zpos (digits2_pos j) - prec) 1);
      try reflexivity; unfold prec in *; lia.
  - rewrite of_int_spec by (unfold prec; lia).
    apply int_sf_lt; [lia |]. apply digits2_below. unfold prec. lia.
Qed.


End Binary64_counting.

Section Binary64_signs.

Import PrimFloat SpecFloat FloatOps FloatAxioms.
Local Open Scope Z_scope.


Lemma has_sign_not_above (x : spec_float) : has_sign true x -> sf_not_above x.
Proof. destruct x as [s | s | | s m e]; cbn; intros H; subst; auto. Qed.

Lemma not_below_spec (x : float) :
  PrimFloat.ltb x zero = false <-> sf_not_below (Prim2SF x).
Proof.
  rewrite ltb_spec, Prim2SF_zero.
  destruct (Prim2SF x) as [s | [] | | [] m e]; cbn; split; intros H;
    try discriminate H; try destruct H; auto.
Qed.


Lemma negative_spec (b : float) :
  PrimFloat.ltb b zero = true ->
  Prim2SF b = S754_infinity true \/ exists m e, Prim2SF b = S754_finite true m e.
Proof.
  rewrite ltb_spec, Prim2SF_zero.
  destruct (Prim2SF b) as [s | [] | | [] m e]; cbn; try discriminate; eauto.
Qed.



Lemma not_above_one (x : float) :
  sf_not_above (Prim2SF x) -> PrimFloat.ltb one x = false.
Proof.
  rewrite ltb_spec. change (Prim2SF one) with (S754_finite false 4503599627370496 (-52)).
  destruct (Prim2SF x) as [s | [] | | [] m e]; cbn; auto; intros [].
Qed.

Lemma div_core_nonneg (m1 m2 : positive) (e1 e2 : Z) :
  0 <= fst (fst (SFdiv_core_binary prec emax (Zpos m1) e1 (Zpos m2) e2)).
Proof.
  unfold SFdiv_core_binary.
  set (s := e1 - e2 - _).
  set (m' := match s with Z0 => Zpos m1 | Zpos _ => Z.shiftl (Zpos m1) s | Zneg _ => 0 end).
  assert (Hm : 0 <= m').
  { unfold m'. destruct s; try lia. apply Z.shiftl_nonneg. lia. }
  pose proof (Z.div_pos m' (Zpos m2) Hm ltac:(lia)) as Hq.
  unfold Z.div in Hq. destruct (Z.div_eucl m' (Zpos m2)) as [q r]. exact Hq.
Qed.

Lemma SFdiv_finite_sign (sx sy : bool) (mx my : positive) (ex ey : Z) :
  has_sign (xorb sx sy)
    (SFdiv prec emax (S754_finite sx mx ex) (S754_finite sy my ey)).
Proof.
  cbn [SFdiv]. pose proof (div_core_nonneg mx my ex ey) as H.
  destruct (SFdiv_core_binary prec emax (Zpos mx) ex (Zpos my) ey) as [[mz ez] lz].
  apply binary_round_aux_sign. exact H.
Qed.

(** A quotient of a number not below zero by a number below zero is not above
    zero. *)
Lemma SFdiv_not_above (x y : spec_float) :
  sf_not_below x ->
  y = S754_infinity true \/ (exists m e, y = S754_finite true m e) ->
  sf_not_above (SFdiv prec emax x y).
Proof.
  intros Hx [-> | (m & e & ->)];
    destruct x as [s | [] | | [] mx ex]; try exact I; try destruct Hx;
    try (destruct s; exact I).
  apply has_sign_not_above. apply (SFdiv_finite_sign false true).
Qed.



Lemma of_int_sign (z : Z) :
  0 <= z < 2 ^ 63 -> has_sign false (Prim2SF (B64.of_int z)).
Proof.
  intros H. rewrite of_int_normalize by exact H.
  unfold binary_normalize. destruct z as [| p | p]; try lia; [reflexivity |].
  unfold binary_round.
  destruct (shl_align p 0 (fexp prec emax (Zpos (digits2_pos p) + 0))) as [mz ez].
  apply binary_round_aux_sign. lia.
Qed.

Lemma has_sign_opp (s : bool) (x : spec_float) :
  has_sign s x -> has_sign (negb s) (SFopp x).
Proof. destruct x; cbn; intros H; subst; auto. Qed.

(** [Math.ceil] keeps what is not a finite number, and the sign of a finite
    one. *)
Lemma ceil_class (x : float) :
  match Prim2SF x with
  | S754_finite s _ _ => has_sign s (Prim2SF (B64.ceil x))
  | _ => B64.ceil x = x
  end.
Proof.
  unfold B64.ceil. pose proof (Prim2SF_valid x) as Hv.
  destruct (Prim2SF x) as [s | s | | s m e] eqn:E; try reflexivity.
  destruct (0 <=? e) eqn:Ee; [rewrite E; reflexivity |].
  apply Z.leb_gt in Ee.
  apply valid_finite in Hv. destruct Hv as (_ & Hd & _).
  pose proof (digits2_bounds m) as Hb.
  assert (Hm : Zpos m < 2 ^ 53).
  { apply Z.lt_le_trans with (2 ^ Zpos (digits2_pos m)); [lia |].
    apply Z.pow_le_mono_r; unfold prec in *; lia. }
  assert (Hq : 0 <= Z.shiftr (Zpos m) (- e) <= Zpos m).
  { rewrite Z.shiftr_div_pow2 by lia.
    pose proof (Z.pow_pos_nonneg 2 (- e) ltac:(lia) ltac:(lia)) as Hp. split.
    - apply Z.div_pos; lia.
    - apply Z.div_le_upper_bound; [exact Hp | nia]. }
  destruct s.
  - rewrite opp_spec. apply (has_sign_opp false). apply of_int_sign. lia.
  - destruct (Z.shiftl (Z.shiftr (Zpos m) (- e)) (- e) =? Zpos m);
      apply of_int_sign; lia.
Qed.

Lemma ceil_not_above (x : float) :
  sf_not_above (Prim2SF x) -> sf_not_above (Prim2SF (B64.ceil x)).
Proof.
  intros H. pose proof (ceil_class x) as Hc.
  destruct (Prim2SF x) as [s | s | | s m e] eqn:E; try (rewrite Hc, E; exact H).
  destruct s; [| destruct H]. apply has_sign_not_above. exact Hc.
Qed.


(** [Math.max] returns one of its arguments, or NaN when one of them is. *)
Lemma max_cases (x y : float) :
  B64.max x y = x \/ B64.max x y = y \/
  (B64.max x y = nan /\ (is_nan x = true \/ is_nan y = true)).
Proof.
  unfold B64.max. destruct (is_nan x) eqn:Ex; [right; right; auto |].
  destruct (is_nan y) eqn:Ey; [right; right; auto |]. cbn [orb].
  destruct (PrimFloat.ltb x y); [auto |].
  destruct (PrimFloat.ltb y x); [auto |].
  destruct (get_sign x); auto.
Qed.


End Binary64_signs.

(** ** The closure loop, in binary64 *)

Lemma b64_length_snoc3 (below : list B64.point) (p1 p2 p3 : B64.point) :
  length (below ++ [p1; p2; p3]) = length below + 3.
Proof. rewrite length_app. reflexivity. Qed.

Lemma b64_snoc3_inv (points : list B64.point) :
  3 <= length points ->
  exists below p1 p2 p3, points = below ++ [p1; p2; p3].
Proof.
  intros H.
  destruct (exists_last (l := points)) as [l1 [p3 ->]].
  { intros ->. simpl in H. lia. }
  rewrite length_app in H. simpl in H.
  destruct (exists_last (l := l1)) as [l2 [p2 ->]].
  { intros ->. simpl in H. lia. }
  rewrite length_app in H. simpl in H.
  destruct (exists_last (l := l2)) as [l3 [p1 ->]].
  { intros ->. simpl in H. lia. }
  exists l3, p1, p2, p3. rewrite <- !app_assoc. reflexivity.
Qed.

Lemma b64_point_at_snoc3 (below : list B64.point) (p1 p2 p3 : B64.point) :
  B64.point_at (below ++ [p1; p2; p3]) (length (below ++ [p1; p2; p3]) - 3) = p1 /\
  B64.point_at (below ++ [p1; p2; p3]) (length (below ++ [p1; p2; p3]) - 2) = p2 /\
  B64.point_at (below ++ [p1; p2; p3]) (length (below ++ [p1; p2; p3]) - 1) = p3.
Proof.
  unfold B64.point_at. rewrite b64_length_snoc3.
  repeat split; rewrite app_nth2 by lia.
  - replace (length below + 3 - 3 - length below) with 0 by lia. reflexivity.
  - replace (length below + 3 - 2 - length below) with 1 by lia. reflexivity.
  - replace (length below + 3 - 1 - length below) with 2 by lia. reflexivity.
Qed.

Lemma b64_range_X_snoc3 (below : list B64.point) (p1 p2 p3 : B64.point) :
  B64.range_X (below ++ [p1; p2; p3]) = B64.gap p2 p3.
Proof.
  unfold B64.range_X, B64.gap.
  destruct (b64_point_at_snoc3 below p1 p2 p3) as (_ & -> & ->). reflexivity.
Qed.

Lemma b64_range_Y_snoc3 (below : list B64.point) (p1 p2 p3 : B64.point) :
  B64.range_Y (below ++ [p1; p2; p3]) = B64.gap p1 p2.
Proof.
  unfold B64.range_Y, B64.gap.
  destruct (b64_point_at_snoc3 below p1 p2 p3) as (-> & -> & _). reflexivity.
Qed.

Lemma b64_collapse_snoc3 (below : list B64.point) (p1 p2 p3 : B64.point) :
  B64.pop (B64.pop (B64.pop (below ++ [p1; p2; p3])))
  ++ [B64.top (below ++ [p1; p2; p3])]
  = below ++ [p3].
Proof.
  replace (below ++ [p1; p2; p3]) with (((below ++ [p1]) ++ [p2]) ++ [p3])
    by (rewrite <- !app_assoc; reflexivity).
  unfold B64.top, B64.pop. rewrite last_last, !removelast_last. reflexivity.
Qed.

Lemma b64_closure_short (points : list B64.point) (cycles : list B64.cycle) :
  length points < 3 -> B64.closure points cycles = (points, cycles).
Proof.
  intros H. rewrite B64.closure_equation_1.
  destruct (le_lt_dec 3 (length points)); [lia | reflexivity].
Qed.

(** One turn of the loop, read on the three topmost points. *)
Lemma b64_closure_snoc3 (below : list B64.point) (p1 p2 p3 : B64.point)
  (cycles : list B64.cycle) :
  B64.closure (below ++ [p1; p2; p3]) cycles =
  if PrimFloat.ltb (B64.gap p2 p3) (B64.gap p1 p2)
  then (below ++ [p1; p2; p3], cycles)
  else
    match below with
    | [] => B64.closure [p2; p3] (cycles ++ [B64.formatOutput p1 p2 B64.half])
    | _ :: _ =>
        B64.closure (below ++ [p3]) (cycles ++ [B64.formatOutput p1 p2 PrimFloat.one])
    end.
Proof.
  rewrite B64.closure_equation_1.
  destruct (le_lt_dec 3 (length (below ++ [p1; p2; p3]))) as [Hle | Hlt].
  2: { exfalso. pose proof (b64_length_snoc3 below p1 p2 p3). lia. }
  cbn [B64.closure_unfold_clause_1].
  rewrite b64_range_X_snoc3, b64_range_Y_snoc3.
  destruct (PrimFloat.ltb (B64.gap p2 p3) (B64.gap p1 p2)); [reflexivity |].
  destruct below as [| b below].
  - reflexivity.
  - replace (length ((b :: below) ++ [p1; p2; p3]) =? 3) with false.
    2: { symmetry. apply Nat.eqb_neq. rewrite b64_length_snoc3. simpl. lia. }
    rewrite b64_collapse_snoc3.
    destruct (b64_point_at_snoc3 (b :: below) p1 p2 p3) as (-> & -> & _).
    reflexivity.
Qed.

Lemma b64_stack_ind (P : list B64.point -> Prop) :
  (forall points, (forall points', length points' < length points -> P points') -> P points) ->
  forall points, P points.
Proof.
  intros step points.
  induction points as [points IH] using (induction_ltof1 _ (@length B64.point)).
  apply step. exact IH.
Qed.




(** ** The object used as a map, in binary64 *)

Section B64_counts.

Import PrimFloat.

Lemma b64_get_None (counts : list B64.entry) (k : float) :
  B64.get counts k = None <-> ~ In k (B64.keys counts).
Proof.
  induction counts as [| [k' v] counts IH]; cbn [B64.get B64.keys map In fst].
  - tauto.
  - destruct (Leibniz.eqb k' k) eqn:E.
    + apply FloatAxioms.Leibniz.eqb_spec in E. split; [discriminate | tauto].
    + assert (k' <> k) by (intros H; apply FloatAxioms.Leibniz.eqb_spec in H; congruence).
      fold (B64.keys counts). tauto.
Qed.

Lemma b64_get_Some_In (counts : list B64.entry) (k v : float) :
  B64.get counts k = Some v -> In (k, v) counts.
Proof.
  induction counts as [| [k' v'] counts IH]; cbn [B64.get In]; [discriminate |].
  destruct (Leibniz.eqb k' k) eqn:E.
  - apply FloatAxioms.Leibniz.eqb_spec in E. intros [= ->]. left. congruence.
  - intros H. right. apply IH, H.
Qed.

Lemma b64_set_absent (counts : list B64.entry) (k v : float) :
  B64.get counts k = None -> B64.set counts k v = counts ++ [(k, v)].
Proof.
  induction counts as [| [k' v'] counts IH]; cbn [B64.get B64.set app]; [reflexivity |].
  destruct (Leibniz.eqb k' k); [discriminate |].
  intros H. rewrite IH by exact H. reflexivity.
Qed.

Lemma b64_set_present (counts : list B64.entry) (k v w : float) :
  B64.get counts k = Some w ->
  exists l1 l2, counts = l1 ++ (k, w) :: l2 /\ B64.set counts k v = l1 ++ (k, v) :: l2.
Proof.
  induction counts as [| [k' v'] counts IH]; cbn [B64.get B64.set]; [discriminate |].
  destruct (Leibniz.eqb k' k) eqn:E.
  - apply FloatAxioms.Leibniz.eqb_spec in E. subst k'. intros [= ->].
    exists [], counts. split; reflexivity.
  - intros H. destruct (IH H) as (l1 & l2 & -> & ->).
    exists ((k', v') :: l1), l2. split; reflexivity.
Qed.

Lemma b64_keys_set (counts : list B64.entry) (k v : float) :
  B64.keys (B64.set counts k v)
  = match B64.get counts k with
    | Some _ => B64.keys counts
    | None => B64.keys counts ++ [k]
    end.
Proof.
  destruct (B64.get counts k) as [w |] eqn:E.
  - destruct (b64_set_present counts k v w E) as (l1 & l2 & -> & ->).
    unfold B64.keys. rewrite !map_app. reflexivity.
  - rewrite b64_set_absent by exact E. unfold B64.keys. rewrite map_app. reflexivity.
Qed.

Lemma b64_In_keys_set (counts : list B64.entry) (k v k' : float) :
  In k' (B64.keys (B64.set counts k v)) <-> k' = k \/ In k' (B64.keys counts).
Proof.
  rewrite b64_keys_set. destruct (B64.get counts k) as [w |] eqn:E.
  - apply b64_get_Some_In in E. apply (in_map fst) in E. cbn [fst] in E.
    fold (B64.keys counts) in E. split; [tauto |]. intros [-> | H]; assumption.
  - rewrite in_app_iff. cbn [In]. split; intros H; intuition congruence.
Qed.

Lemma b64_NoDup_keys_set (counts : list B64.entry) (k v : float) :
  NoDup (B64.keys counts) -> NoDup (B64.keys (B64.set counts k v)).
Proof.
  intros H. rewrite b64_keys_set. destruct (B64.get counts k) as [w |] eqn:E.
  - exact H.
  - apply b64_get_None in E.
    apply (Permutation_NoDup (l := k :: B64.keys counts)).
    + apply Permutation_cons_append.
    + constructor; assumption.
Qed.





End B64_counts.

(** ** Sorting the entries, in binary64 *)

Section B64_sorting.

Import PrimFloat.

Lemma b64_insert_by_perm {A : Type} (cmp : A -> A -> float) (x : A) (l : list A) :
  Permutation (B64.insert_by cmp x l) (x :: l).
Proof.
  induction l as [| y l IH]; cbn [B64.insert_by].
  - apply Permutation_refl.
  - destruct (ltb (cmp x y) zero).
    + apply Permutation_refl.
    + rewrite IH. apply perm_swap.
Qed.

Lemma b64_fold_insert_perm {A : Type} (cmp : A -> A -> float) (l : list A) :
  forall acc,
    Permutation (fold_left (fun acc x => B64.insert_by cmp x acc) l acc) (acc ++ l).
Proof.
  induction l as [| x l IH]; intros acc; cbn [fold_left].
  - rewrite app_nil_r. apply Permutation_refl.
  - rewrite IH, b64_insert_by_perm. apply Permutation_middle.
Qed.

Lemma b64_sort_by_perm {A : Type} (cmp : A -> A -> float) (l : list A) :
  Permutation (B64.sort_by cmp l) l.
Proof. apply (b64_fold_insert_perm cmp l []). Qed.

Lemma b64_Object_entries_perm (counts : list B64.entry) :
  Permutation (B64.Object_entries counts) counts.
Proof.
  unfold B64.Object_entries. rewrite b64_sort_by_perm. apply filter_split_perm.
Qed.

Lemma b64_sorted_entries_perm (counts : list B64.entry) :
  Permutation (B64.sort_by B64.by_key (B64.Object_entries counts)) counts.
Proof. rewrite b64_sort_by_perm. apply b64_Object_entries_perm. Qed.




Lemma b64_perm_keys (h h' : list B64.entry) (k : float) :
  Permutation h h' -> (In k (B64.keys h) <-> In k (B64.keys h')).
Proof.
  intros Hp. split; apply Permutation_in; [| symmetry];
    apply (Permutation_map fst Hp).
Qed.

End B64_sorting.

(** ** The binning loop, in binary64 *)

Section B64_loops.

Import PrimFloat.
Local Open Scope nat_scope.

Lemma b64_bin_step_eq (b : float) (counts : list B64.entry) (nmax : float)
  (c : float * float) :
  B64.bin_step b (counts, nmax) c
  = (B64.set counts (B64.bucket_key b c)
       (add (B64.or_zero (B64.get counts (B64.bucket_key b c))) (snd c)),
     B64.max (B64.bucket_index b c) nmax).
Proof. destruct c as [r n]. reflexivity. Qed.

(** The keys after the binning loop: those from before and the buckets of the
    cycles. *)
Lemma b64_bin_fold_keys (b : float) (cycles : list (float * float)) :
  forall counts nmax,
    (forall k,
       In k (B64.keys (fst (fold_left (B64.bin_step b) cycles (counts, nmax))))
       <-> In k (B64.keys counts) \/ exists c, In c cycles /\ k = B64.bucket_key b c) /\
    (NoDup (B64.keys counts) ->
     NoDup (B64.keys (fst (fold_left (B64.bin_step b) cycles (counts, nmax))))).
Proof.
  induction cycles as [| c cycles IH]; intros counts nmax; cbn [fold_left].
  - split; [| auto]. intros k. cbn [fst In]. split; [auto |].
    intros [H | (c & [] & _)]. exact H.
  - rewrite b64_bin_step_eq.
    destruct (IH (B64.set counts (B64.bucket_key b c)
                    (add (B64.or_zero (B64.get counts (B64.bucket_key b c))) (snd c)))
                 (B64.max (B64.bucket_index b c) nmax)) as [Hk Hnd].
    split.
    + intros k. rewrite Hk, b64_In_keys_set. cbn [In]. split.
      * intros [[-> | H] | (c' & Hc' & ->)]; eauto.
      * intros [H | (c' & [<- | Hc'] & ->)]; eauto.
    + intros H. apply Hnd. apply b64_NoDup_keys_set. exact H.
Qed.


(** The bound after the binning loop is the bound from before or the bucket
    index of a cycle, or NaN when one of these is. *)
Lemma b64_bin_fold_bound (P : float -> Prop) (b : float) (cycles : list (float * float)) :
  P nan ->
  Forall (fun c => P (B64.bucket_index b c)) cycles ->
  forall counts nmax,
    P nmax -> P (snd (fold_left (B64.bin_step b) cycles (counts, nmax))).
Proof.
  intros Hnan. induction 1 as [| c cycles Hc _ IH]; intros counts nmax H;
    cbn [fold_left]; [exact H |].
  rewrite b64_bin_step_eq. apply IH.
  destruct (max_cases (B64.bucket_index b c) nmax) as [-> | [-> | [-> _]]]; assumption.
Qed.


(** ** The loop counter *)

Lemma counter_S (k : nat) : B64.counter (S k) = add (B64.counter k) one.
Proof. reflexivity. Qed.

(** The counter holds the integers [1, 2, 3, ...] up to [2^53] ... *)
Lemma counter_int (k : nat) :
  (Z.of_nat k + 1 <= 2 ^ 53)%Z -> B64.counter k = B64.of_int (Z.of_nat k + 1).
Proof.
  induction k as [| k IH]; intros H; [reflexivity |].
  rewrite counter_S, IH by lia.
  destruct (Z.eq_dec (Z.of_nat (S k) + 1) (2 ^ 53)) as [E | E].
  - rewrite E. replace (Z.of_nat k + 1)%Z with (2 ^ 53 - 1)%Z by lia.
    apply add_one_top.
  - rewrite add_one_exact by lia. f_equal. lia.
Qed.

(** ... and stays at [2^53] ever after. *)
Lemma counter_top (k : nat) :
  (2 ^ 53 <= Z.of_nat k + 1)%Z -> B64.counter k = B64.of_int (2 ^ 53).
Proof.
  induction k as [| k IH]; intros H; [lia |].
  destruct (Z.eq_dec (Z.of_nat (S k) + 1) (2 ^ 53)) as [E | E].
  - rewrite counter_int by lia. f_equal. exact E.
  - rewrite counter_S, IH by lia. apply add_one_top.
Qed.

Lemma counter_as_int (k : nat) :
  exists i, (1 <= i <= 2 ^ 53)%Z /\ B64.counter k = B64.of_int i.
Proof.
  destruct (Z.le_gt_cases (Z.of_nat k + 1) (2 ^ 53)) as [H | H].
  - exists (Z.of_nat k + 1)%Z. split; [lia | apply counter_int; exact H].
  - exists (2 ^ 53)%Z. split; [lia | apply counter_top; lia].
Qed.

(** ** The densification loop, in binary64 *)

Lemma b64_densify_more_fuel (nmax b : float) (fuel : nat) :
  forall i counts counts',
    B64.densify fuel i nmax b counts = Some counts' ->
    forall fuel', fuel <= fuel' -> B64.densify fuel' i nmax b counts = Some counts'.
Proof.
  induction fuel as [| fuel IH]; intros i counts counts' H fuel' Hle.
  - cbn [B64.densify] in H. destruct (ltb i nmax) eqn:E; [discriminate |].
    destruct fuel'; cbn [B64.densify]; rewrite E; exact H.
  - cbn [B64.densify] in H. destruct (ltb i nmax) eqn:E.
    + destruct fuel' as [| fuel']; [lia |]. cbn [B64.densify]. rewrite E.
      apply (IH _ _ _ H). lia.
    + destruct fuel'; cbn [B64.densify]; rewrite E; exact H.
Qed.

(** The loop leaves as soon as the counter is not below the bound. *)
Lemma b64_densify_returns (nmax b : float) (k : nat) :
  forall j counts,
    ltb (B64.counter (j + k)) nmax = false ->
    exists counts',
      forall fuel, k <= fuel -> B64.densify fuel (B64.counter j) nmax b counts = Some counts'.
Proof.
  induction k as [| k IH]; intros j counts H.
  - rewrite Nat.add_0_r in H. exists counts. intros fuel _.
    destruct fuel; cbn [B64.densify]; rewrite H; reflexivity.
  - destruct (ltb (B64.counter j) nmax) eqn:E.
    + destruct (IH (S j) (B64.touch counts (mul (B64.counter j) b))) as [counts' Hc].
      { replace (S j + k) with (j + S k) by lia. exact H. }
      exists counts'. intros fuel Hf. destruct fuel as [| fuel]; [lia |].
      cbn [B64.densify]. rewrite E, <- counter_S. apply Hc. lia.
    + exists counts. intros fuel _.
      destruct fuel; cbn [B64.densify]; rewrite E; reflexivity.
Qed.

(** It never leaves while the counter stays below the bound. *)
Lemma b64_densify_diverges (nmax b : float) :
  (forall k, ltb (B64.counter k) nmax = true) ->
  forall fuel j counts, B64.densify fuel (B64.counter j) nmax b counts = None.
Proof.
  intros H. induction fuel as [| fuel IH]; intros j counts; cbn [B64.densify];
    rewrite H; [reflexivity |].
  rewrite <- counter_S. apply IH.
Qed.


End B64_loops.

(** ** Bin widths below zero, in binary64 *)

Section B64_negative_width.

Import PrimFloat SpecFloat FloatOps FloatAxioms.

Lemma b64_densify_stop (fuel : nat) (i nmax b : float) (counts : list B64.entry) :
  ltb i nmax = false -> B64.densify fuel i nmax b counts = Some counts.
Proof. intros H. destruct fuel; cbn [B64.densify]; rewrite H; reflexivity. Qed.

Lemma b64_bucket_index_not_above (b : float) (c : float * float) :
  ltb (fst c) zero = false -> ltb b zero = true ->
  sf_not_above (Prim2SF (B64.bucket_index b c)).
Proof.
  intros Hc Hb. unfold B64.bucket_index. apply ceil_not_above.
  rewrite div_spec. apply SFdiv_not_above.
  - apply not_below_spec. exact Hc.
  - apply negative_spec. exact Hb.
Qed.

Lemma b64_negative_width_bound (b : float) (cycles : list (float * float)) :
  B64.ranges_not_below_zero cycles -> ltb b zero = true ->
  ltb one (B64.loop_bound b cycles) = false.
Proof.
  intros Hc Hb. apply not_above_one. unfold B64.loop_bound.
  apply (b64_bin_fold_bound (fun n => sf_not_above (Prim2SF n))).
  - exact I.
  - unfold B64.ranges_not_below_zero in Hc. rewrite Forall_forall in *.
    intros c Hin. apply b64_bucket_index_not_above; [apply Hc, Hin | exact Hb].
  - rewrite Prim2SF_zero. exact I.
Qed.

End B64_negative_width.

(** C3, as the code has it, in binary64.  A bin width below zero is not
    rejected: for every list of cycles whose ranges are not below zero and
    every bin width [b < 0], the aggregation returns a histogram, whatever the
    fuel (the densification loop does not run a single turn); its keys are
    exactly the keys [ceil(rng / b) * b] that the code computes for the
    cycles. *)
Theorem negative_bin_width_returns (cycles : list (PrimFloat.float * PrimFloat.float)) (b : PrimFloat.float) :
  B64.ranges_not_below_zero cycles -> PrimFloat.ltb b PrimFloat.zero = true ->
  exists h,
    (forall fuel, B64.aggregate fuel cycles (Some b) = Some h) /\
    (forall k, In k (B64.keys h) <-> exists c, In c cycles /\ k = B64.bucket_key b c).
Proof.
  intros Hc Hb.
  pose proof (b64_negative_width_bound b cycles Hc Hb) as Hbound.
  destruct (b64_bin_fold_keys b cycles [] PrimFloat.zero) as [Hkeys _].
  unfold B64.aggregate, B64.loop_bound in *.
  destruct (fold_left (B64.bin_step b) cycles ([], PrimFloat.zero)) as [counts nmax].
  cbn [fst snd] in *.
  exists (B64.sort_by B64.by_key (B64.Object_entries counts)). split.
  - intros fuel. rewrite b64_densify_stop by exact Hbound. reflexivity.
  - intros k. rewrite (b64_perm_keys _ _ k (b64_sorted_entries_perm counts)), Hkeys.
    cbn [B64.keys map In]. tauto.
Qed.

Lemma negative_bin_width_returns_witness :
  exists h,
    (forall fuel,
       B64.aggregate fuel B64.pairs1 (Some (PrimFloat.opp (B64.of_int 5))) = Some h) /\
    (forall k,
       In k (B64.keys h) <->
       exists c, In c B64.pairs1 /\ k = B64.bucket_key (PrimFloat.opp (B64.of_int 5)) c).
Proof.
  apply (negative_bin_width_returns B64.pairs1 (PrimFloat.opp (B64.of_int 5))).
  - repeat constructor.
  - reflexivity.
Defined.

(** ** Order facts used by the loops *)

Section Binary64_leq.

Import PrimFloat SpecFloat FloatOps FloatAxioms.
Local Open Scope Z_scope.








End Binary64_leq.

(** ** The counter against the bound *)

Section B64_counter_bound.

Import PrimFloat SpecFloat FloatOps FloatAxioms.

Lemma counter_below_top (nmax : float) :
  ltb (B64.of_int (2 ^ 53)) nmax = true -> forall k, ltb (B64.counter k) nmax = true.
Proof.
  intros H k. destruct (counter_as_int k) as (i & Hi & ->).
  destruct (Z.eq_dec i (2 ^ 53)) as [-> | Hne]; [exact H |].
  apply float_ltb_trans with (B64.of_int (2 ^ 53)); [| exact H].
  apply of_int_lt; lia.
Qed.

(** A call whose bound is above [2^53] never leaves the densification loop:
    [i++] stays at [2^53]. *)
Lemma b64_aggregate_diverges (b : float) (cycles : list (float * float)) :
  ltb (B64.of_int (2 ^ 53)) (B64.loop_bound b cycles) = true ->
  forall fuel, B64.aggregate fuel cycles (Some b) = None.
Proof.
  intros H fuel. unfold B64.aggregate, B64.loop_bound in *.
  destruct (fold_left (B64.bin_step b) cycles ([], zero)) as [counts nmax].
  cbn [snd] in H. change one with (B64.counter 0).
  rewrite b64_densify_diverges; [reflexivity |]. apply counter_below_top. exact H.
Qed.

(** A call whose bound is not above [2^53] leaves the loop. *)
Lemma b64_aggregate_returns (b : float) (cycles : list (float * float)) :
  ltb (B64.of_int (2 ^ 53)) (B64.loop_bound b cycles) = false ->
  exists h K, forall fuel, K <= fuel -> B64.aggregate fuel cycles (Some b) = Some h.
Proof.
  intros H. unfold B64.aggregate, B64.loop_bound in *.
  destruct (fold_left (B64.bin_step b) cycles ([], zero)) as [counts nmax].
  cbn [snd] in H.
  destruct (b64_densify_returns nmax b (Z.to_nat (2 ^ 53 - 1)) 0 counts) as [counts' Hc].
  { rewrite Nat.add_0_l, counter_int by lia.
    replace (Z.of_nat (Z.to_nat (2 ^ 53 - 1)) + 1)%Z with (2 ^ 53)%Z by lia. exact H. }
  exists (B64.sort_by B64.by_key (B64.Object_entries counts')), (Z.to_nat (2 ^ 53 - 1)).
  intros fuel Hf. change one with (B64.counter 0). rewrite (Hc fuel Hf). reflexivity.
Qed.


End B64_counter_bound.

(** ** Bin widths above zero, in binary64 *)

Section B64_positive_width.

Import PrimFloat SpecFloat FloatOps FloatAxioms.

Variable b : float.
Hypothesis b_pos : ltb zero b = true.
Hypothesis b_fin : ltb b infinity = true.





End B64_positive_width.

Section B64_bound.

Import PrimFloat SpecFloat FloatOps FloatAxioms.


End B64_bound.

(** ** A counter value times the bin width is not zero *)

Section Binary64_product.

Import PrimFloat SpecFloat FloatOps FloatAxioms.
Local Open Scope Z_scope.






End Binary64_product.

(** ** The histogram, in binary64 *)



(** ** Termination, in binary64 *)

Lemma b64_scan_length_le (rest : list PrimFloat.float) :
  forall i x d result,
    length (snd (B64.scan i rest x d result)) <= length result + length rest.
Proof.
  induction rest as [| y rest IH]; intros i x d result; cbn [B64.scan].
  - simpl. lia.
  - destruct (B64.strict_eq (B64.Number y) x).
    + etransitivity; [apply IH |]. simpl. lia.
    + etransitivity; [apply IH |].
      destruct (PrimFloat.ltb _ _); [rewrite length_app |]; simpl; lia.
Qed.

Lemma b64_reversals_length (series : list PrimFloat.float) :
  2 <= length (B64.reversals series) <= 2 + (length series - 1).
Proof.
  unfold B64.reversals.
  pose proof (b64_scan_length_le (skipn 1 series) 1%Z (B64.series_at series 1)
                (PrimFloat.sub (B64.to_number (B64.series_at series 1))
                               (B64.to_number (B64.series_at series 0)))
                [(0%Z, B64.series_at series 0)]) as H.
  assert (H2 : forall rest i x d result,
             length result <= length (snd (B64.scan i rest x d result))).
  { induction rest as [| y rest IH]; intros i x d result; cbn [B64.scan]; [simpl; lia |].
    destruct (B64.strict_eq (B64.Number y) x); [apply IH |].
    etransitivity; [| apply IH].
    destruct (PrimFloat.ltb _ _); [rewrite length_app |]; simpl; lia. }
  specialize (H2 (skipn 1 series) 1%Z (B64.series_at series 1)
                (PrimFloat.sub (B64.to_number (B64.series_at series 1))
                               (B64.to_number (B64.series_at series 0)))
                [(0%Z, B64.series_at series 0)]).
  destruct (B64.scan _ _ _ _ _) as [x' result'].
  rewrite length_app. rewrite length_skipn in H. simpl in *. lia.
Qed.

(** Every turn of the closure loop that goes on takes a point off the stack
    for the cycle it emits, and the stack keeps a point. *)
Lemma b64_closure_length (points : list B64.point) :
  forall cycles,
    length (snd (B64.closure points cycles)) + length (fst (B64.closure points cycles))
    <= length cycles + length points /\
    (1 <= length points -> 1 <= length (fst (B64.closure points cycles))).
Proof.
  induction points as [points IH] using b64_stack_ind.
  intros cycles.
  destruct (le_lt_dec 3 (length points)) as [Hle | Hlt].
  2: { rewrite b64_closure_short by exact Hlt. simpl. lia. }
  destruct (b64_snoc3_inv points Hle) as (below & p1 & p2 & p3 & ->).
  rewrite b64_closure_snoc3.
  destruct (PrimFloat.ltb (B64.gap p2 p3) (B64.gap p1 p2)); [simpl; lia |].
  destruct below as [| b below].
  - rewrite b64_closure_short by (simpl; lia). simpl. rewrite length_app. simpl. lia.
  - destruct (IH ((b :: below) ++ [p3])
                ltac:(rewrite !length_app; simpl; lia)
                (cycles ++ [B64.formatOutput p1 p2 PrimFloat.one])) as [H1 H2].
    rewrite !length_app in *. simpl in *. lia.
Qed.

Lemma b64_fold_push_length (rs : list B64.point) :
  forall st,
    length (snd (fold_left B64.push_point rs st))
    + length (fst (fold_left B64.push_point rs st))
    <= length (snd st) + length (fst st) + length rs /\
    (1 <= length (fst st) + length rs ->
     1 <= length (fst (fold_left B64.push_point rs st))).
Proof.
  induction rs as [| r rs IH]; intros st; [simpl; lia |].
  cbn [fold_left]. destruct (IH (B64.push_point st r)) as [H1 H2].
  unfold B64.push_point in *.
  destruct (b64_closure_length (fst st ++ [r]) (snd st)) as [H3 H4].
  rewrite length_app in *. simpl in *. lia.
Qed.

Lemma b64_drain_length (points : list B64.point) :
  forall cycles, length (B64.drain points cycles) = length cycles + (length points - 1).
Proof.
  induction points as [| p0 points IH]; intros cycles; [simpl; lia |].
  destruct points as [| p1 points]; [simpl; lia |].
  change (B64.drain (p0 :: p1 :: points) cycles)
    with (B64.drain (p1 :: points) (cycles ++ [B64.formatOutput p0 p1 B64.half])).
  rewrite IH, length_app. simpl. lia.
Qed.

Lemma b64_extractCycles_length (series : list PrimFloat.float) :
  length (B64.extractCycles series) <= length (B64.reversals series) - 1.
Proof.
  unfold B64.extractCycles.
  destruct (b64_fold_push_length (B64.reversals series) ([], [])) as [H1 H2].
  pose proof (b64_reversals_length series) as Hrev.
  destruct (fold_left B64.push_point (B64.reversals series) ([], [])) as [points cycles].
  rewrite b64_drain_length. simpl in *. lia.
Qed.

(** C9, as the code has it, in binary64.  On every signal the reversal scan,
    the closure loop and the drain end (they are total functions: the scan
    reads each sample once, the closure loop is defined by recursion on the
    height of the stack, the drain by recursion on the stack; they make at most
    one reversal per sample plus the two ends, and fewer cycles than
    reversals), and the aggregation without binning returns.  With binning,
    the densification loop is left exactly when its bound [nmax], the largest
    [ceil(rng / binsize)], is not above [2^53] (a NaN bound included): then
    [countCycles] returns, and otherwise it never does, whatever the fuel. *)
Theorem pipeline_terminates (series : list PrimFloat.float) :
  length (B64.reversals series) <= 2 + (length series - 1) /\
  length (B64.extractCycles series) <= length (B64.reversals series) - 1 /\
  (exists h, forall fuel, B64.countCycles fuel series None = Some h) /\
  (forall b,
     (PrimFloat.ltb (B64.of_int (2 ^ 53)) (B64.loop_bound b (B64.pairs series)) = false ->
      exists h K,
        forall fuel, K <= fuel -> B64.countCycles fuel series (Some b) = Some h) /\
     (PrimFloat.ltb (B64.of_int (2 ^ 53)) (B64.loop_bound b (B64.pairs series)) = true ->
      forall fuel, B64.countCycles fuel series (Some b) = None)).
Proof.
  split; [apply b64_reversals_length |].
  split; [apply b64_extractCycles_length |].
  split; [eexists; intros fuel; reflexivity |].
  intros b. split.
  - apply b64_aggregate_returns.
  - apply b64_aggregate_diverges.
Qed.

Lemma pipeline_terminates_witness :
  (exists h K,
     forall fuel, K <= fuel -> B64.countCycles fuel B64.sig1 (Some (B64.of_int 5)) = Some h) /\
  B64.countCycles 2 B64.sig1 (Some (B64.of_int 5))
  = Some [(B64.of_int 5, PrimFloat.one); (B64.of_int 10, PrimFloat.zero);
          (B64.of_int 15, B64.half)].
Proof.
  split; [| vm_compute; reflexivity].
  destruct (pipeline_terminates B64.sig1) as (_ & _ & _ & H).
  apply (H (B64.of_int 5)). vm_compute. reflexivity.
Defined.

(** The finite signal [-1e308, 1e308] with the finite bin width [1e308 > 0]:
    the range overflows to Infinity and [countCycles] never returns. *)
Lemma finite_signal_never_returns :
  Forall (fun x => PrimFloat.ltb (PrimFloat.abs x) PrimFloat.infinity = true)
    [PrimFloat.opp B64.d1e308; B64.d1e308] /\
  PrimFloat.ltb PrimFloat.zero B64.d1e308 = true /\
  PrimFloat.ltb B64.d1e308 PrimFloat.infinity = true /\
  B64.pairs [PrimFloat.opp B64.d1e308; B64.d1e308] = [(PrimFloat.infinity, B64.half)] /\
  forall fuel,
    B64.countCycles fuel [PrimFloat.opp B64.d1e308; B64.d1e308] (Some B64.d1e308) = None.
Proof.
  split; [repeat constructor |]. split; [reflexivity |]. split; [reflexivity |].
  split; [vm_compute; reflexivity |].
  apply b64_aggregate_diverges. vm_compute. reflexivity.
Qed.

(** The signal [0, 1e16] with the bin width 1: the bound is [1e16], the counter
    stays at [2^53], and [countCycles] never returns. *)
Lemma counter_sticks_below_bound (fuel : nat) :
  B64.countCycles fuel [PrimFloat.zero; B64.d1e16] (Some PrimFloat.one) = None.
Proof. apply b64_aggregate_diverges. vm_compute. reflexivity. Qed.

(** ** The code on sample inputs, in binary64 *)

Section B64_samples.

Import PrimFloat.
Local Open Scope float_scope.

(** [countCycles([0, 5, 2, 8, 12])] and [countCycles([0, 5, 2, 8, 12], 5)]. *)
Lemma b64_scenario_0_5_2_8_12 :
  B64.reversals B64.sig1
  = [B64.pt 0 0; B64.pt 2 5; B64.pt 3 2; B64.pt 4 12] /\
  B64.pairs B64.sig1 = B64.pairs1 /\
  B64.countCycles 0 B64.sig1 None = Some [(3, 1); (12, 0.5)] /\
  B64.countCycles 2 B64.sig1 (Some 5) = Some [(5, 1); (10, 0); (15, 0.5)].
Proof. repeat split; vm_compute; reflexivity. Qed.

(** [countCycles([0, 5, 2, 8, 12], -5)]: not rejected. *)
Lemma b64_negative_width_sample :
  B64.countCycles 0 B64.sig1 (Some (-5)) = Some [(0, 1); (10, 0.5)].
Proof. vm_compute. reflexivity. Qed.

(** [countCycles([0, 0.03], -0.01)]: the quotient [0.03 / -0.01] is [-3]. *)
Lemma b64_rounded_quotient_below_zero :
  B64.countCycles 0 [0; 0x1.eb851eb851eb8p-6] (Some (-0x1.47ae147ae147bp-7))
  = Some [(0x1.eb851eb851eb8p-6, 0.5)].
Proof. vm_compute. reflexivity. Qed.

(** [countCycles([0, 0.9], 0.3)]: the quotient [0.9 / 0.3] is [3] and the
    product [3 * 0.3] is [0.8999999999999999]. *)
Lemma b64_rounded_bucket :
  B64.countCycles 2 [0; B64.d0_9] (Some B64.d0_3)
  = Some [(B64.d0_3, 0); (B64.d0_6, 0); (B64.d0_9_below, 0.5)].
Proof. vm_compute. reflexivity. Qed.

(** [extractCycles([10, 0, 1, 1e-17, 5])]: [|1e-17 - 1|] is [1], so the pair
    over the indices 2 and 3 closes as a full cycle. *)
Lemma b64_rounded_closure :
  B64.extractCycles [10; 0; 1; B64.d1e_17; 5]
  = [B64.mkCycle 1 0.5 1 2 3; B64.mkCycle 10 5 0.5 0 4; B64.mkCycle 5 2.5 0.5 4 4].
Proof. vm_compute. reflexivity. Qed.

(** [reversals([0, 1e-200, 0, 1, 0])]: the product of the two differences at
    index 2 underflows to [-0], which is not below zero. *)
Lemma b64_underflowing_product :
  B64.reversals [0; 0x1.87e92154ef7acp-665; 0; 1; 0]
  = [B64.pt 0 0; B64.pt 3 0; B64.pt 4 1; B64.pt 4 0].
Proof. vm_compute. reflexivity. Qed.

(** [formatOutput] on the values [0.1] and [0.3]: the range is
    [0.19999999999999998] and the mean [0.2]. *)
Lemma b64_rounded_range :
  B64.formatOutput (B64.pt 0 0x1.999999999999ap-4) (B64.pt 1 0x1.3333333333333p-2) 0.5
  = B64.mkCycle 0x1.9999999999999p-3 0x1.999999999999ap-3 0.5 0 1.
Proof. vm_compute. reflexivity. Qed.

(** A series with fewer than two samples: [series[1]] is [undefined]. *)
Lemma b64_short_series :
  B64.countCycles 0 [] None = Some [(nan, 0.5)] /\
  B64.countCycles 0 [7] (Some 5) = Some [(nan, 0.5)].
Proof. split; vm_compute; reflexivity. Qed.

End B64_samples.

(** * Further properties of the code *)
(** ** The shape of the reversal sequence *)

Lemma num_strict_eq_true (a b : num) : num_strict_eq a b = true -> a = b.
Proof.
  destruct a, b; simpl; try discriminate; try reflexivity.
  intros H. apply Qceqb_eq in H. congruence.
Qed.

Lemma strict_eq_true (v w : value) : strict_eq v w = true -> v = w.
Proof.
  destruct v, w; simpl; try discriminate; try reflexivity.
  intros H. apply num_strict_eq_true in H. congruence.
Qed.

Lemma mul_NaN_r (x : num) : mul x NaN = NaN.
Proof. destruct x; reflexivity. Qed.

Lemma nth_map_Number (l : list num) (k : nat) :
  nth k (map Number l) Undefined = series_at l k.
Proof.
  unfold series_at. revert k. induction l as [| y l IH]; intros [| k]; simpl;
    try reflexivity. apply IH.
Qed.

Lemma last_cons_default {A : Type} (l : list A) :
  forall a d, last (a :: l) d = last l a.
Proof.
  induction l as [| z l IH]; intros a d; [reflexivity |].
  change (last (a :: z :: l) d) with (last (z :: l) d).
  rewrite (IH z d), (IH z a). reflexivity.
Qed.

Lemma scan_shape (rest : list num) :
  forall i x d result,
    exists interior,
      snd (scan i rest x d result) = result ++ interior /\
      fst (scan i rest x d result) = last (map Number rest) x /\
      StronglySorted Z.lt (map fst interior) /\
      Forall (fun p => scanned i x rest p) interior.
Proof.
  induction rest as [| y rest IH]; intros i x d result; cbn [scan].
  - exists []. rewrite app_nil_r. repeat split; constructor.
  - assert (Hlift : forall x' p,
               (strict_eq (Number y) x = true -> x' = x) ->
               (strict_eq (Number y) x = false -> x' = Number y) ->
               scanned (i + 1)%Z x' rest p -> scanned i x (y :: rest) p).
    { intros x' [j v]. unfold scanned. cbn [fst snd]. intros Heq Hne (Hj & Hv & Hs).
      assert (Hk : Z.to_nat (j - i) = S (Z.to_nat (j - (i + 1)))) by lia.
      split; [| split].
      - cbn [length]. lia.
      - rewrite Hk, Hv. cbn [map nth].
        destruct (Z.to_nat (j - (i + 1))) as [| k]; [| reflexivity].
        cbn [nth]. destruct (strict_eq (Number y) x) eqn:E.
        + rewrite (Heq eq_refl). symmetry. apply strict_eq_true. exact E.
        + apply Hne. reflexivity.
      - rewrite Hk. cbn [map nth]. exact Hs. }
    assert (Hlast : last (map Number (y :: rest)) x = last (map Number rest) (Number y)).
    { cbn [map]. apply last_cons_default. }
    destruct (strict_eq (Number y) x) eqn:E.
    + destruct (IH (i + 1)%Z x d result) as (interior & Hs & Hf & Hsorted & Hall).
      exists interior. split; [exact Hs |]. split; [| split; [exact Hsorted |]].
      * rewrite Hf, Hlast. apply strict_eq_true in E. rewrite <- E.
        reflexivity.
      * eapply Forall_impl; [| exact Hall]. intros p. apply Hlift; congruence.
    + destruct (ltb (mul d (sub y (to_number x))) zero).
      * destruct (IH (i + 1)%Z (Number y) (sub y (to_number x)) (result ++ [(i, x)]))
          as (interior & Hs & Hf & Hsorted & Hall).
        exists ((i, x) :: interior). rewrite Hs, <- app_assoc.
        split; [reflexivity |]. split; [rewrite Hf, Hlast; reflexivity |]. split.
        -- cbn [map fst]. constructor; [exact Hsorted |].
           rewrite Forall_map. eapply Forall_impl; [| exact Hall].
           intros [j v] (Hj & _). cbn [fst] in *. lia.
        -- constructor.
           ++ split; [cbn [fst length]; lia |]. cbn [fst snd].
              rewrite Z.sub_diag. cbn [Z.to_nat map nth]. split; [reflexivity | exact E].
           ++ eapply Forall_impl; [| exact Hall]. intros p. apply Hlift; congruence.
      * destruct (IH (i + 1)%Z (Number y) (sub y (to_number x)) result)
          as (interior & Hs & Hf & Hsorted & Hall).
        exists interior. split; [exact Hs |].
        split; [rewrite Hf, Hlast; reflexivity |]. split; [exact Hsorted |].
        eapply Forall_impl; [| exact Hall]. intros p. apply Hlift; congruence.
Qed.

Lemma num_strict_eq_irrefl (b : num) : num_strict_eq b b = false -> b = NaN.
Proof.
  destruct b as [| | | q]; simpl; try discriminate; try reflexivity.
  intros H. apply Qceqb_neq in H. congruence.
Qed.

Lemma last_series_at (l : list num) :
  forall b, last (map Number l) (Number b) = series_at (b :: l) (length l).
Proof.
  induction l as [| y l IH]; intros b; [reflexivity |].
  cbn [map]. rewrite last_cons_default. apply IH.
Qed.

(** The first scan turn reads [series[1]] against itself and records nothing. *)
Lemma scan_first_turn (b : num) (rest : list num) (d : num) (result : list point) :
  exists d', scan 1 (b :: rest) (Number b) d result = scan 2 rest (Number b) d' result.
Proof.
  cbn [scan]. change (1 + 1)%Z with 2%Z.
  destruct (strict_eq (Number b) (Number b)) eqn:E; [exists d; reflexivity |].
  cbn [strict_eq] in E. apply num_strict_eq_irrefl in E. subst b.
  cbn [to_number]. change (sub NaN NaN) with NaN. rewrite mul_NaN_r.
  change (ltb NaN zero) with false. cbv iota. exists NaN. reflexivity.
Qed.

Lemma reversals_shape (series : list num) :
  2 <= length series ->
  exists interior,
    reversals series
    = (0%Z, series_at series 0) :: interior
      ++ [((Z.of_nat (length series) - 1)%Z, series_at series (length series - 1))] /\
    StronglySorted Z.lt (map fst interior) /\
    Forall (interior_point series) interior.
Proof.
  intros Hlen. destruct series as [| a [| b rest]]; simpl in Hlen; try lia.
  unfold reversals.
  change (series_at (a :: b :: rest) 0) with (Number a).
  change (series_at (a :: b :: rest) 1) with (Number b).
  change (skipn 1 (a :: b :: rest)) with (b :: rest).
  destruct (scan_first_turn b rest
              (sub (to_number (Number b)) (to_number (Number a))) [(0%Z, Number a)])
    as [d' ->].
  destruct (scan_shape rest 2%Z (Number b) d' [(0%Z, Number a)])
    as (interior & Hs & Hf & Hsorted & Hall).
  destruct (scan 2 rest (Number b) d' [(0%Z, Number a)]) as [x' result'].
  cbn [fst snd] in Hs, Hf. subst x' result'.
  exists interior. split; [| split; [exact Hsorted |]].
  - rewrite <- app_assoc. cbn [app]. do 3 f_equal.
    rewrite last_series_at. cbn [length].
    replace (S (S (length rest)) - 1) with (S (length rest)) by lia. reflexivity.
  - eapply Forall_impl; [| exact Hall].
    intros [j v]. unfold scanned, interior_point. cbn [fst snd length].
    intros (Hj & Hv & Hne).
    assert (Hk1 : Z.to_nat j - 1 = S (Z.to_nat (j - 2))) by lia.
    assert (Hk2 : Z.to_nat j = S (S (Z.to_nat (j - 2)))) by lia.
    split; [lia |]. split.
    + rewrite Hv, Hk1. change (Number b :: map Number rest) with (map Number (b :: rest)).
      rewrite nth_map_Number. reflexivity.
    + rewrite Hk2. rewrite nth_map_Number in Hne. exact Hne.
Qed.

(** X1.  For every series of at least two samples, the reversal sequence
    begins with the first sample at index 0 and ends with the last sample at
    index [length - 1]. *)
Theorem reversals_ends (series : list num) :
  2 <= length series ->
  hd_error (reversals series) = Some (0%Z, series_at series 0) /\
  last (reversals series) (0%Z, Undefined)
  = ((Z.of_nat (length series) - 1)%Z, series_at series (length series - 1)).
Proof.
  intros Hlen. destruct (reversals_shape series Hlen) as (interior & -> & _).
  split; [reflexivity |].
  rewrite app_comm_cons. apply last_last.
Qed.

Lemma reversals_ends_witness :
  hd_error (reversals sig2) = Some (0%Z, series_at sig2 0) /\
  last (reversals sig2) (0%Z, Undefined)
  = ((Z.of_nat (length sig2) - 1)%Z, series_at sig2 (length sig2 - 1)).
Proof. apply (reversals_ends sig2). simpl. lia. Defined.

Lemma sorted_lt_snoc_le (l : list Z) (m : Z) :
  StronglySorted Z.lt l -> Forall (fun j => (j <= m)%Z) l ->
  StronglySorted Z.le (l ++ [m]).
Proof.
  induction 1 as [| j l Hs IH Hj]; intros Hm; cbn [app].
  - constructor; constructor.
  - inversion Hm as [| ? ? Hjm Hm']; subst.
    constructor; [apply IH; exact Hm' |].
    apply Forall_app. split.
    + eapply Forall_impl; [| exact Hj]. intros k Hk. cbv beta in *. lia.
    + constructor; [exact Hjm | constructor].
Qed.

Lemma indices_increasing (series : list num) :
  2 <= length series ->
  Forall (fun p => (0 <= fst p <= Z.of_nat (length series) - 1)%Z) (reversals series) /\
  StronglySorted Z.le (map fst (reversals series)).
Proof.
  intros Hlen. destruct (reversals_shape series Hlen) as (interior & -> & Hs & Hall).
  assert (Hb : Forall (fun j => (2 <= j <= Z.of_nat (length series) - 1)%Z)
                 (map fst interior)).
  { rewrite Forall_map. eapply Forall_impl; [| exact Hall].
    intros p (Hp & _). exact Hp. }
  split.
  - constructor; [cbn [fst]; lia |]. apply Forall_app. split.
    + eapply Forall_impl; [| exact Hall]. intros p (Hp & _). cbv beta. lia.
    + constructor; [cbn [fst]; lia | constructor].
  - cbn [map fst]. rewrite map_app. cbn [map fst].
    change (0%Z :: map fst interior ++ [(Z.of_nat (length series) - 1)%Z])
      with ((0%Z :: map fst interior) ++ [(Z.of_nat (length series) - 1)%Z]).
    apply sorted_lt_snoc_le.
    + constructor; [exact Hs |]. eapply Forall_impl; [| exact Hb].
      intros j Hj. cbv beta in *. lia.
    + constructor; [lia |]. eapply Forall_impl; [| exact Hb].
      intros j Hj. cbv beta in *. lia.
Qed.

(** X2.  For every series of at least two samples, the indices of the
    reversals lie between 0 and [length - 1] and never decrease; they increase
    strictly up to the last reversal, which alone may repeat the index before
    it. *)
Theorem reversals_indices (series : list num) :
  2 <= length series ->
  Forall (fun p => (0 <= fst p <= Z.of_nat (length series) - 1)%Z) (reversals series) /\
  StronglySorted Z.le (map fst (reversals series)) /\
  StronglySorted Z.lt (map fst (removelast (reversals series))).
Proof.
  intros Hlen. destruct (indices_increasing series Hlen) as [Hb Hs].
  split; [exact Hb |]. split; [exact Hs |].
  destruct (reversals_shape series Hlen) as (interior & -> & Hs' & Hall).
  rewrite app_comm_cons, removelast_last. cbn [map fst].
  constructor; [exact Hs' |]. rewrite Forall_map.
  eapply Forall_impl; [| exact Hall]. intros p (Hp & _). cbv beta. lia.
Qed.

Lemma reversals_indices_witness :
  Forall (fun p => (0 <= fst p <= Z.of_nat (length sig2) - 1)%Z) (reversals sig2) /\
  StronglySorted Z.le (map fst (reversals sig2)) /\
  StronglySorted Z.lt (map fst (removelast (reversals sig2))).
Proof. apply (reversals_indices sig2). simpl. lia. Defined.

(** X3.  For every series of at least two samples, a reversal that is neither
    the first nor the last one carries an index [i >= 2], the value of the
    sample before it, [series[i - 1]], and the sample [series[i]] at its index
    is another value: the turn is recorded one index after the sample that
    makes it. *)
Theorem interior_reversal_offset (series : list num) (k : nat) (p : point) :
  2 <= length series ->
  0 < k -> k + 1 < length (reversals series) ->
  nth_error (reversals series) k = Some p ->
  (2 <= fst p <= Z.of_nat (length series) - 1)%Z /\
  snd p = series_at series (Z.to_nat (fst p) - 1) /\
  strict_eq (series_at series (Z.to_nat (fst p))) (snd p) = false.
Proof.
  intros Hlen Hk0 Hk1 Hnth.
  destruct (reversals_shape series Hlen) as (interior & Hrev & _ & Hall).
  rewrite Hrev in Hk1, Hnth.
  cbn [length] in Hk1. rewrite length_app in Hk1. cbn [length] in Hk1.
  destruct k as [| k]; [lia |]. cbn [nth_error] in Hnth.
  rewrite nth_error_app1 in Hnth by lia.
  rewrite Forall_forall in Hall. apply (Hall p). eapply nth_error_In. exact Hnth.
Qed.

Lemma interior_reversal_offset_witness :
  (2 <= fst (pt 2 5) <= Z.of_nat (length sig1) - 1)%Z /\
  snd (pt 2 5) = series_at sig1 (Z.to_nat (fst (pt 2 5)) - 1) /\
  strict_eq (series_at sig1 (Z.to_nat (fst (pt 2 5)))) (snd (pt 2 5)) = false.
Proof.
  apply (interior_reversal_offset sig1 1 (pt 2 5)).
  - simpl. lia.
  - lia.
  - vm_compute. lia.
  - reflexivity.
Defined.


(** ** The cycles of a series *)

Lemma abs_not_negative (x : num) : ltb (abs x) zero = false.
Proof.
  destruct x as [| | | q]; try reflexivity. unfold abs.
  destruct (Qcltb q 0%Qc) eqn:E; unfold ltb, zero, of_Z.
  - change (Q2Qc (inject_Z 0)) with 0%Qc. apply Qcltb_ge.
    apply Qcltb_lt in E. unfold Qcle, Qclt in *.
    change (this 0%Qc) with 0%Q in *.
    cbn [this Qcopp Q2Qc]. rewrite Qred_correct. lra.
  - exact E.
Qed.

Lemma rng_formatOutput (p q : point) (c : num) :
  rng (formatOutput p q c) = gap q p.
Proof. destruct p, q. reflexivity. Qed.

Lemma i1_formatOutput (p q : point) (c : num) : i1 (formatOutput p q c) = fst p.
Proof. destruct p, q. reflexivity. Qed.

Lemma i2_formatOutput (p q : point) (c : num) : i2 (formatOutput p q c) = fst q.
Proof. destruct p, q. reflexivity. Qed.

(** X4.  Whatever the series, every cycle that [extractCycles] emits is built
    by [formatOutput] from two reversals of the series, its count is 0.5 or
    1.0, and its range is never below zero. *)
Theorem cycles_from_reversals (series : list num) :
  Forall (fun c =>
            (count c = half \/ count c = one) /\
            ltb (rng c) zero = false /\
            exists p q,
              In p (reversals series) /\ In q (reversals series) /\
              c = formatOutput p q (count c))
         (extractCycles series).
Proof.
  apply (extractCycles_preserves (fun p => In p (reversals series))).
  - intros p q c Hp Hq Hc. rewrite count_formatOutput.
    split; [exact Hc |]. split.
    + rewrite rng_formatOutput. apply abs_not_negative.
    + exists p, q. repeat split; assumption.
  - apply Forall_forall. intros p Hp. exact Hp.
Qed.

(** Stacks sorted by a relation on points. *)
Section Sorted_stack.

Variable R : point -> point -> Prop.
Variable Q : cycle -> Prop.
Hypothesis formatOutput_RQ :
  forall p q c, R p q -> c = half \/ c = one -> Q (formatOutput p q c).

Lemma sorted_app_l (l1 l2 : list point) :
  StronglySorted R (l1 ++ l2) -> StronglySorted R l1.
Proof.
  induction l1 as [| a l1 IH]; intros H; [constructor |].
  cbn [app] in H. apply StronglySorted_inv in H. destruct H as [H1 H2].
  constructor; [apply IH; exact H1 |].
  apply Forall_app in H2. apply H2.
Qed.

Lemma sorted_drop_middle (l1 m l2 : list point) :
  StronglySorted R (l1 ++ m ++ l2) -> StronglySorted R (l1 ++ l2).
Proof.
  induction l1 as [| a l1 IH]; cbn [app]; intros H.
  - induction m as [| b m IHm]; [exact H |].
    cbn [app] in H. apply StronglySorted_inv in H. apply IHm, H.
  - apply StronglySorted_inv in H. destruct H as [H1 H2].
    constructor; [apply IH; exact H1 |].
    rewrite !Forall_app in *. tauto.
Qed.

Lemma sorted_adjacent (l1 l2 : list point) (a b : point) :
  StronglySorted R (l1 ++ a :: b :: l2) -> R a b.
Proof.
  induction l1 as [| c l1 IH]; cbn [app]; intros H;
    apply StronglySorted_inv in H; destruct H as [H1 H2].
  - inversion H2; assumption.
  - apply IH, H1.
Qed.

Lemma closure_sorted (points : list point) :
  forall cycles tail,
    StronglySorted R (points ++ tail) -> Forall Q cycles ->
    StronglySorted R (fst (closure points cycles) ++ tail) /\
    Forall Q (snd (closure points cycles)).
Proof.
  induction points as [points IH] using stack_ind.
  intros cycles tail Hs HQ.
  destruct (le_lt_dec 3 (length points)) as [Hle | Hlt].
  2: { rewrite closure_short by exact Hlt. split; assumption. }
  destruct (snoc3_inv points Hle) as (below & p1 & p2 & p3 & ->).
  rewrite closure_snoc3.
  destruct (ltb (gap p2 p3) (gap p1 p2)); [split; assumption |].
  assert (HR : R p1 p2).
  { rewrite <- app_assoc in Hs. apply (sorted_adjacent _ _ _ _ Hs). }
  assert (HQ' : forall c, c = half \/ c = one ->
                          Forall Q (cycles ++ [formatOutput p1 p2 c])).
  { intros c Hc. apply Forall_app. split; [exact HQ |].
    constructor; [| constructor]. apply formatOutput_RQ; assumption. }
  destruct below as [| b below].
  - rewrite closure_short by (simpl; lia). split; [| apply HQ'; auto].
    cbn [fst app] in *. apply StronglySorted_inv in Hs. apply Hs.
  - apply IH.
    + rewrite !length_app. simpl. lia.
    + rewrite <- !app_assoc in *.
      apply (sorted_drop_middle (b :: below) [p1; p2] ([p3] ++ tail)). exact Hs.
    + apply HQ'. auto.
Qed.

Lemma fold_push_sorted (rs : list point) :
  forall st,
    StronglySorted R (fst st ++ rs) -> Forall Q (snd st) ->
    StronglySorted R (fst (fold_left push_point rs st)) /\
    Forall Q (snd (fold_left push_point rs st)).
Proof.
  induction rs as [| r rs IH]; intros st Hs HQ.
  - rewrite app_nil_r in Hs. split; assumption.
  - cbn [fold_left]. unfold push_point at 2 4.
    destruct (closure_sorted (fst st ++ [r]) (snd st) rs) as [Hs' HQ'].
    { rewrite <- app_assoc. exact Hs. }
    { exact HQ. }
    apply IH; assumption.
Qed.

Lemma drain_sorted (points : list point) :
  forall cycles,
    StronglySorted R points -> Forall Q cycles -> Forall Q (drain points cycles).
Proof.
  induction points as [| p0 points IH]; intros cycles Hs HQ; [exact HQ |].
  destruct points as [| p1 points]; [exact HQ |].
  change (drain (p0 :: p1 :: points) cycles)
    with (drain (p1 :: points) (cycles ++ [formatOutput p0 p1 half])).
  apply StronglySorted_inv in Hs. destruct Hs as [Hs Hp0].
  apply IH; [exact Hs |].
  apply Forall_app. split; [exact HQ |].
  constructor; [| constructor].
  inversion Hp0; subst. apply formatOutput_RQ; auto.
Qed.

Lemma extractCycles_sorted (series : list num) :
  StronglySorted R (reversals series) -> Forall Q (extractCycles series).
Proof.
  intros H. unfold extractCycles.
  destruct (fold_push_sorted (reversals series) ([], []) H (Forall_nil _)) as [Hs HQ].
  destruct (fold_left push_point (reversals series) ([], [])) as [points cycles].
  apply drain_sorted; assumption.
Qed.

End Sorted_stack.

(** X5.  For every series of at least two samples, every cycle runs forward:
    its start index is at most its end index, and both lie between 0 and
    [length - 1]. *)
Theorem cycle_indices_ordered (series : list num) :
  2 <= length series ->
  Forall (fun c => (0 <= i1 c <= i2 c)%Z /\ (i2 c <= Z.of_nat (length series) - 1)%Z)
         (extractCycles series).
Proof.
  intros Hlen.
  apply (extractCycles_sorted
           (fun p q => (0 <= fst p <= fst q)%Z /\
                       (fst q <= Z.of_nat (length series) - 1)%Z)).
  - intros p q c H _. rewrite i1_formatOutput, i2_formatOutput. exact H.
  - destruct (indices_increasing series Hlen) as (Hb & Hs).
    revert Hb Hs. generalize (reversals series). intros l.
    induction l as [| a l IH]; intros Hb Hs; [constructor |].
    inversion Hb as [| ? ? Ha Hb']; subst.
    cbn [map] in Hs. apply StronglySorted_inv in Hs. destruct Hs as [Hs Hal].
    constructor; [apply IH; assumption |].
    rewrite Forall_map in Hal. rewrite Forall_forall in *.
    intros q Hq. specialize (Hal q Hq). specialize (Hb' q Hq).
    cbv beta in *. lia.
Qed.

Lemma cycle_indices_ordered_witness :
  Forall (fun c => (0 <= i1 c <= i2 c)%Z /\ (i2 c <= Z.of_nat (length sig1) - 1)%Z)
         (extractCycles sig1).
Proof. apply (cycle_indices_ordered sig1). simpl. lia. Defined.

(** The closure loop keeps the newest point on top of the stack, and keeps a
    point under it when there was one. *)
Lemma closure_top (points : list point) :
  forall l r cycles,
    points = l ++ [r] ->
    exists l',
      fst (closure points cycles) = l' ++ [r] /\ (l <> [] -> l' <> []).
Proof.
  induction points as [points IH] using stack_ind.
  intros l r cycles Hp.
  destruct (le_lt_dec 3 (length points)) as [Hle | Hlt].
  2: { rewrite closure_short by exact Hlt. exists l. split; [exact Hp | auto]. }
  destruct (snoc3_inv points Hle) as (below & p1 & p2 & p3 & Hq).
  assert (Hr : r = p3 /\ l = below ++ [p1; p2]).
  { rewrite Hq in Hp.
    replace (below ++ [p1; p2; p3]) with ((below ++ [p1; p2]) ++ [p3]) in Hp
      by (rewrite <- app_assoc; reflexivity).
    apply app_inj_tail in Hp. destruct Hp as [-> ->]. split; reflexivity. }
  destruct Hr as [-> ->]. rewrite Hq, closure_snoc3.
  destruct (ltb (gap p2 p3) (gap p1 p2)).
  { exists (below ++ [p1; p2]). split; [| auto].
    cbn [fst]. rewrite <- app_assoc. reflexivity. }
  destruct below as [| b below].
  - rewrite closure_short by (simpl; lia). exists [p2]. split; [reflexivity |].
    intros _. discriminate.
  - destruct (IH ((b :: below) ++ [p3])
                (ltac:(rewrite Hq, !length_app; simpl; lia))
                (b :: below) p3 (cycles ++ [formatOutput p1 p2 one]) eq_refl)
      as (l' & Hl' & Hne).
    exists l'. split; [exact Hl' |]. intros _. apply Hne. discriminate.
Qed.

Lemma fold_push_nonempty (rs : list point) :
  forall st, rs <> [] -> fst (fold_left push_point rs st) <> [].
Proof.
  induction rs as [| r rs IH] using rev_ind; intros st Hne; [congruence |].
  rewrite fold_left_app. cbn [fold_left]. unfold push_point at 1.
  destruct (closure_top (fst (fold_left push_point rs st) ++ [r])
              (fst (fold_left push_point rs st)) r
              (snd (fold_left push_point rs st)) eq_refl)
    as (l' & -> & _).
  destruct l'; discriminate.
Qed.

Lemma drain_snoc (l : list point) :
  forall q r cycles,
    drain (l ++ [q; r]) cycles = drain (l ++ [q]) cycles ++ [formatOutput q r half].
Proof.
  induction l as [| p l IH]; intros q r cycles; [reflexivity |].
  destruct l as [| p' l].
  - reflexivity.
  - change (drain ((p :: p' :: l) ++ [q; r]) cycles)
      with (drain ((p' :: l) ++ [q; r]) (cycles ++ [formatOutput p p' half])).
    rewrite IH. reflexivity.
Qed.

(** X6.  Whatever the series, [extractCycles] emits at least one cycle, and
    the last one it emits is a half cycle that ends at the last reversal, the
    one with index [length - 1]. *)
Theorem last_cycle_is_half (series : list num) :
  exists cycles c,
    extractCycles series = cycles ++ [c] /\
    count c = half /\
    i2 c = (Z.of_nat (length series) - 1)%Z.
Proof.
  unfold extractCycles.
  assert (Hrev : exists (rs : list point) (r0 : point) (x : value),
             reversals series
             = (r0 :: rs) ++ [((Z.of_nat (length series) - 1)%Z, x) : point]).
  { unfold reversals.
    pose proof (scan_length (skipn 1 series) 1%Z (series_at series 1)
                  (sub (to_number (series_at series 1)) (to_number (series_at series 0)))
                  [(0%Z, series_at series 0)]) as H.
    destruct (scan _ _ _ _ _) as [x' result']. cbn [snd length] in H.
    destruct result' as [| r0 rs]; [simpl in H; lia |].
    exists rs, r0, x'. reflexivity. }
  destruct Hrev as (rs & r0 & x & ->).
  rewrite fold_left_app.
  pose proof (fold_push_nonempty (r0 :: rs) ([], []) ltac:(discriminate)) as Hne.
  remember (fold_left push_point (r0 :: rs) ([], [])) as st eqn:Hst. clear Hst.
  change (fold_left push_point [((Z.of_nat (length series) - 1)%Z, x)] st)
    with (closure (fst st ++ [((Z.of_nat (length series) - 1)%Z, x)]) (snd st)).
  destruct (closure_top (fst st ++ [((Z.of_nat (length series) - 1)%Z, x)])
              (fst st) ((Z.of_nat (length series) - 1)%Z, x) (snd st) eq_refl)
    as (l' & Hl' & Hne').
  specialize (Hne' Hne).
  destruct (closure _ (snd st)) as [points' cycles']. cbn [fst] in Hl'. subst points'.
  destruct (exists_last Hne') as (l'' & q & ->).
  rewrite <- app_assoc. cbn [app]. rewrite drain_snoc.
  eexists. eexists. split; [reflexivity |].
  rewrite count_formatOutput, i2_formatOutput. split; reflexivity.
Qed.

(** ** The histogram, key by key *)









Lemma get_app_l (l l' : list entry) (k : num) :
  In k (keys l) -> get (l ++ l') k = get l k.
Proof.
  induction l as [| [k' v'] l IH]; intros Hin; [destruct Hin |].
  cbn [app get]. destruct (key_eqb k' k) eqn:E; [reflexivity |].
  apply IH. destruct Hin as [Hin | Hin]; [| exact Hin].
  apply key_eqb_neq in E. cbn [fst] in Hin. congruence.
Qed.






(** ** The histogram does not depend on the order of the cycles *)







(** ** Series that give related reversals give related cycles *)

Section Related_stacks.

Variable Rp : point -> point -> Prop.
Variable Rc : cycle -> cycle -> Prop.
Hypothesis related_closes :
  forall p1 p1' p2 p2' p3 p3',
    Rp p1 p1' -> Rp p2 p2' -> Rp p3 p3' ->
    ltb (gap p2 p3) (gap p1 p2) = ltb (gap p2' p3') (gap p1' p2').
Hypothesis related_formatOutput :
  forall p p' q q' c,
    Rp p p' -> Rp q q' -> Rc (formatOutput p q c) (formatOutput p' q' c).

Lemma closure_related (points : list point) :
  forall points' cycles cycles',
    Forall2 Rp points points' -> Forall2 Rc cycles cycles' ->
    Forall2 Rp (fst (closure points cycles)) (fst (closure points' cycles')) /\
    Forall2 Rc (snd (closure points cycles)) (snd (closure points' cycles')).
Proof.
  induction points as [points IH] using stack_ind.
  intros points' cycles cycles' Hp Hc.
  pose proof (Forall2_length Hp) as Hlen.
  destruct (le_lt_dec 3 (length points)) as [Hle | Hlt].
  2: { rewrite !closure_short by lia. split; assumption. }
  destruct (snoc3_inv points Hle) as (below & p1 & p2 & p3 & ->).
  apply Forall2_app_inv_l in Hp.
  destruct Hp as (below' & top3 & Hb & H3 & ->).
  inversion H3 as [| ? p1' ? l1 Hp1 H2]; subst.
  inversion H2 as [| ? p2' ? l2 Hp2 H1]; subst.
  inversion H1 as [| ? p3' ? l3 Hp3 H0]; subst.
  inversion H0; subst.
  rewrite !closure_snoc3.
  rewrite <- (related_closes _ _ _ _ _ _ Hp1 Hp2 Hp3).
  destruct (ltb (gap p2 p3) (gap p1 p2)).
  { split; [| exact Hc]. cbn [fst]. apply Forall2_app; [exact Hb |].
    repeat constructor; assumption. }
  assert (Hc' : forall c, Forall2 Rc (cycles ++ [formatOutput p1 p2 c])
                            (cycles' ++ [formatOutput p1' p2' c])).
  { intros c. apply Forall2_app; [exact Hc |].
    constructor; [| constructor]. apply related_formatOutput; assumption. }
  destruct Hb as [| b b' below below' Hbb Hb].
  - rewrite !closure_short by (simpl; lia). split; [| apply Hc'].
    cbn [fst]. repeat constructor; assumption.
  - apply IH.
    + rewrite !length_app. simpl. lia.
    + apply Forall2_app; [constructor; assumption |].
      constructor; [exact Hp3 | constructor].
    + apply Hc'.
Qed.

Lemma fold_push_related (rs : list point) :
  forall rs' st st',
    Forall2 Rp rs rs' ->
    Forall2 Rp (fst st) (fst st') -> Forall2 Rc (snd st) (snd st') ->
    Forall2 Rp (fst (fold_left push_point rs st)) (fst (fold_left push_point rs' st')) /\
    Forall2 Rc (snd (fold_left push_point rs st)) (snd (fold_left push_point rs' st')).
Proof.
  induction rs as [| r rs IH]; intros rs' st st' Hrs Hp Hc.
  - inversion Hrs; subst. split; assumption.
  - inversion Hrs as [| ? r' ? rs0 Hr Hrs']; subst. cbn [fold_left].
    destruct (closure_related (fst st ++ [r]) (fst st' ++ [r']) (snd st) (snd st'))
      as [Hp' Hc'].
    { apply Forall2_app; [exact Hp | constructor; [exact Hr | constructor]]. }
    { exact Hc. }
    apply IH; assumption.
Qed.

Lemma drain_related (points : list point) :
  forall points' cycles cycles',
    Forall2 Rp points points' -> Forall2 Rc cycles cycles' ->
    Forall2 Rc (drain points cycles) (drain points' cycles').
Proof.
  induction points as [| p0 points IH]; intros points' cycles cycles' Hp Hc.
  - inversion Hp; subst. exact Hc.
  - inversion Hp as [| ? p0' ? l Hp0 Hp']; subst.
    destruct Hp' as [| p1 p1' points points' Hp1 Hp'']; [exact Hc |].
    change (drain (p0 :: p1 :: points) cycles)
      with (drain (p1 :: points) (cycles ++ [formatOutput p0 p1 half])).
    change (drain (p0' :: p1' :: points') cycles')
      with (drain (p1' :: points') (cycles' ++ [formatOutput p0' p1' half])).
    apply IH; [constructor; assumption |].
    apply Forall2_app; [exact Hc |].
    constructor; [| constructor]. apply related_formatOutput; assumption.
Qed.

Lemma extractCycles_related (series series' : list num) :
  Forall2 Rp (reversals series) (reversals series') ->
  Forall2 Rc (extractCycles series) (extractCycles series').
Proof.
  intros H. unfold extractCycles.
  destruct (fold_push_related (reversals series) (reversals series') ([], []) ([], [])
              H (Forall2_nil _) (Forall2_nil _)) as [Hp Hc].
  destruct (fold_left push_point (reversals series) ([], [])) as [points cycles].
  destruct (fold_left push_point (reversals series') ([], [])) as [points' cycles'].
  apply drain_related; assumption.
Qed.

End Related_stacks.

(** Cycles with the same ranges and counts are aggregated alike. *)
Lemma same_pairs (cycles cycles' : list cycle) :
  Forall2 (fun c c' => rng c = rng c' /\ count c = count c') cycles cycles' ->
  map (fun c => (rng c, count c)) cycles = map (fun c => (rng c, count c)) cycles'.
Proof.
  induction 1 as [| c c' l l' [Hr Hc] _ IH]; [reflexivity |].
  cbn [map]. rewrite Hr, Hc, IH. reflexivity.
Qed.

(** ** Affine maps of the signal *)

Ltac qc_to_q :=
  unfold Qclt, Qcle in *;
  change (this 0%Qc) with 0%Q in *;
  cbn [this Qcplus Qcmult Qcopp Q2Qc] in *;
  rewrite ?Qred_correct in *.







Lemma finite_list (l : list num) :
  Forall (fun y => is_finite y = true) l -> exists qs, l = map Fin qs.
Proof.
  induction 1 as [| y l Hy _ [qs ->]]; [exists []; reflexivity |].
  destruct y as [| | | q]; try discriminate. exists (q :: qs). reflexivity.
Qed.












(** ** Monotone signals *)

Section Steady.

(** [D] holds of the differences of one direction. *)
Variable D : Qc -> Prop.
Hypothesis D_zero : D 0%Qc.
Hypothesis D_product : forall u v, D u -> D v -> Qcltb (u * v)%Qc 0%Qc = false.

Lemma scan_steady (qs : list Qc) :
  forall i a u result,
    D u -> steps D a qs ->
    snd (scan i (map Fin qs) (Number (Fin a)) (Fin u) result) = result.
Proof.
  induction qs as [| y qs IH]; intros i a u result Hu Hs; [reflexivity |].
  destruct Hs as [Hy Hs]. cbn [map scan].
  destruct (strict_eq (Number (Fin y)) (Number (Fin a))) eqn:E.
  - apply IH; [exact Hu |].
    cbn [strict_eq num_strict_eq] in E. apply Qceqb_eq in E. subst y. exact Hs.
  - cbn [to_number]. unfold sub. cbn [neg add mul].
    unfold ltb, zero, of_Z. change (Q2Qc (inject_Z 0)) with 0%Qc.
    rewrite (D_product u (y + - a)%Qc Hu Hy). apply IH; assumption.
Qed.

Lemma reversals_steady (a b : Qc) (qs : list Qc) :
  steps D a (b :: qs) ->
  reversals (map Fin (a :: b :: qs))
  = [(0%Z, Number (Fin a));
     ((Z.of_nat (length (a :: b :: qs)) - 1)%Z,
      series_at (map Fin (a :: b :: qs)) (length (a :: b :: qs) - 1))].
Proof.
  intros [Hb Hs]. unfold reversals. rewrite length_map. cbn [map].
  change (series_at (Fin a :: Fin b :: map Fin qs) 0) with (Number (Fin a)).
  change (series_at (Fin a :: Fin b :: map Fin qs) 1) with (Number (Fin b)).
  cbn [skipn to_number]. unfold sub. cbn [neg add].
  pose proof (scan_steady (b :: qs) 1%Z b (b + - a)%Qc [(0%Z, Number (Fin a))] Hb) as H.
  assert (Hs' : steps D b (b :: qs)).
  { split; [| exact Hs]. replace (b + - b)%Qc with 0%Qc by ring. exact D_zero. }
  specialize (H Hs').
  destruct (scan_shape (map Fin (b :: qs)) 1%Z (Number (Fin b)) (Fin (b + - a)%Qc)
              [(0%Z, Number (Fin a))]) as (_ & _ & Hf & _).
  cbn [map] in H, Hf.
  destruct (scan 1 (Fin b :: map Fin qs) (Number (Fin b)) (Fin (b + - a)%Qc)
                 [(0%Z, Number (Fin a))]) as [x' result'].
  cbn [fst snd] in H, Hf. subst x' result'. cbn [app]. do 3 f_equal.
  rewrite last_cons_default.
  rewrite (last_series_at (map Fin qs) (Fin b)). rewrite length_map. cbn [length].
  replace (S (S (length qs)) - 1) with (S (length qs)) by lia.
  reflexivity.
Qed.

End Steady.

Lemma extractCycles_two (series : list num) (p q : point) :
  reversals series = [p; q] -> extractCycles series = [formatOutput p q half].
Proof.
  intros H. unfold extractCycles. rewrite H. cbn [fold_left]. unfold push_point.
  cbn [fst snd app]. rewrite (closure_short [_] _) by (simpl; lia).
  cbn [fst snd app]. rewrite (closure_short [_; _] _) by (simpl; lia).
  reflexivity.
Qed.

Lemma steps_up (qs : list Qc) :
  forall a, nondecreasing (map Fin (a :: qs)) -> steps (fun u => (0 <= u)%Qc) a qs.
Proof.
  induction qs as [| y qs IH]; intros a H; [exact I |].
  cbn [map] in H. inversion H as [| ? ? Hs Hr]; subst. split.
  - inversion Hr as [| ? ? Hlt]; subst. cbn [ltb] in Hlt. apply Qcltb_ge in Hlt.
    qc_to_q. lra.
  - apply IH. exact Hs.
Qed.

Lemma steps_down (qs : list Qc) :
  forall a, nonincreasing (map Fin (a :: qs)) -> steps (fun u => (u <= 0)%Qc) a qs.
Proof.
  induction qs as [| y qs IH]; intros a H; [exact I |].
  cbn [map] in H. inversion H as [| ? ? Hs Hr]; subst. split.
  - inversion Hr as [| ? ? Hlt]; subst. cbn [ltb] in Hlt. apply Qcltb_ge in Hlt.
    qc_to_q. lra.
  - apply IH. exact Hs.
Qed.

(** X14.  A finite signal of at least two samples that never goes down, or
    never goes up, has exactly two reversals, its first and its last sample,
    and gives a single half cycle between them. *)
Theorem monotone_signal (series : list num) :
  2 <= length series ->
  Forall (fun y => is_finite y = true) series ->
  nondecreasing series \/ nonincreasing series ->
  reversals series
  = [(0%Z, series_at series 0);
     ((Z.of_nat (length series) - 1)%Z, series_at series (length series - 1))] /\
  extractCycles series
  = [formatOutput (0%Z, series_at series 0)
       ((Z.of_nat (length series) - 1)%Z, series_at series (length series - 1)) half].
Proof.
  intros Hlen Hfin Hmono. destruct (finite_list series Hfin) as [qs ->].
  destruct qs as [| a [| b qs]]; simpl in Hlen; try lia.
  assert (H : reversals (map Fin (a :: b :: qs))
              = [(0%Z, Number (Fin a));
                 ((Z.of_nat (length (a :: b :: qs)) - 1)%Z,
                  series_at (map Fin (a :: b :: qs)) (length (a :: b :: qs) - 1))]).
  { destruct Hmono as [Hup | Hdown].
    - apply (reversals_steady (fun u => (0 <= u)%Qc)).
      + apply Qcle_refl.
      + intros u v Hu Hv. apply Qcltb_ge. qc_to_q. nra.
      + apply steps_up. exact Hup.
    - apply (reversals_steady (fun u => (u <= 0)%Qc)).
      + apply Qcle_refl.
      + intros u v Hu Hv. apply Qcltb_ge. qc_to_q. nra.
      + apply steps_down. exact Hdown. }
  rewrite length_map.
  change (series_at (map Fin (a :: b :: qs)) 0) with (Number (Fin a)).
  split; [exact H |]. apply extractCycles_two. exact H.
Qed.

Lemma monotone_signal_witness :
  extractCycles (map of_Z [1; 1; 4; 9]%Z)
  = [formatOutput (0%Z, Number (of_Z 1)) (3%Z, Number (of_Z 9)) half].
Proof.
  apply (monotone_signal (map of_Z [1; 1; 4; 9]%Z)).
  - simpl. lia.
  - repeat constructor.
  - left. repeat constructor.
Defined.

(** ** A sample read twice *)

Lemma scan_reindex (rest : list num) :
  forall i j x d result result',
    map snd result = map snd result' ->
    fst (scan i rest x d result) = fst (scan j rest x d result') /\
    map snd (snd (scan i rest x d result)) = map snd (snd (scan j rest x d result')).
Proof.
  induction rest as [| y rest IH]; intros i j x d result result' H; cbn [scan].
  - split; [reflexivity | exact H].
  - destruct (strict_eq (Number y) x); [apply IH; exact H |].
    destruct (ltb (mul d (sub y (to_number x))) zero); apply IH; [| exact H].
    rewrite !map_app. f_equal. exact H.
Qed.

Lemma scan_repeated (a : num) (l2 : list num) (l1 : list num) :
  is_finite a = true ->
  forall i j x d result result',
    map snd result = map snd result' ->
    fst (scan i (l1 ++ a :: a :: l2) x d result)
    = fst (scan j (l1 ++ a :: l2) x d result') /\
    map snd (snd (scan i (l1 ++ a :: a :: l2) x d result))
    = map snd (snd (scan j (l1 ++ a :: l2) x d result')).
Proof.
  intros Ha.
  assert (Haa : strict_eq (Number a) (Number a) = true).
  { destruct a as [| | | q]; try discriminate. cbn [strict_eq num_strict_eq].
    apply Qceqb_eq. reflexivity. }
  induction l1 as [| y l1 IH]; intros i j x d result result' H.
  - cbn [app]. cbn [scan].
    destruct (strict_eq (Number a) x) eqn:E.
    + apply scan_reindex. exact H.
    + rewrite Haa.
      destruct (ltb (mul d (sub a (to_number x))) zero); apply scan_reindex; [| exact H].
      rewrite !map_app. f_equal. exact H.
  - cbn [app scan].
    destruct (strict_eq (Number y) x); [apply IH; exact H |].
    destruct (ltb (mul d (sub y (to_number x))) zero); apply IH; [| exact H].
    rewrite !map_app. f_equal. exact H.
Qed.

Lemma reversals_repeated (pre post : list num) (a : num) :
  2 <= length (pre ++ a :: post) ->
  Forall (fun y => is_finite y = true) (pre ++ a :: post) ->
  map snd (reversals (pre ++ a :: a :: post)) = map snd (reversals (pre ++ a :: post)).
Proof.
  intros Hlen Hfin.
  assert (Ha : is_finite a = true).
  { rewrite Forall_forall in Hfin. apply Hfin. apply in_elt. }
  assert (Hends : forall i j (xr xr' : value * list point),
             fst xr = fst xr' -> map snd (snd xr) = map snd (snd xr') ->
             map snd (let '(x', result') := xr in result' ++ [(i, x')])
             = map snd (let '(x', result') := xr' in result' ++ [(j, x')])).
  { intros i j [x r] [x' r']. cbn [fst snd]. intros -> H.
    rewrite !map_app. f_equal. exact H. }
  destruct pre as [| b pre].
  - destruct post as [| p0 post]; [simpl in Hlen; lia |].
    cbn [app] in *. unfold reversals.
    change (series_at (a :: a :: p0 :: post) 0) with (Number a).
    change (series_at (a :: a :: p0 :: post) 1) with (Number a).
    change (series_at (a :: p0 :: post) 0) with (Number a).
    change (series_at (a :: p0 :: post) 1) with (Number p0).
    cbn [skipn to_number].
    inversion Hfin as [| ? ? _ Hfin']; subst.
    inversion Hfin' as [| ? ? Hp0 _]; subst.
    destruct a as [| | | qa]; try discriminate.
    destruct p0 as [| | | q0]; try discriminate.
    apply Hends; cbn [scan strict_eq num_strict_eq to_number];
      rewrite !(proj2 (Qceqb_eq _ _) eq_refl);
      (destruct (Qceqb q0 qa) eqn:E;
       [ apply Qceqb_eq in E; subst q0;
         replace (sub (Fin qa) (Fin qa)) with (Fin 0%Qc)
           by (unfold sub; cbn [neg add]; f_equal; ring);
         apply scan_reindex; reflexivity
       | unfold sub; cbn [neg add mul];
         replace ((qa + - qa) * (q0 + - qa))%Qc with 0%Qc by ring;
         change (ltb (Fin 0%Qc) zero) with false; cbv iota;
         apply scan_reindex; reflexivity ]).
  - cbn [app] in *. unfold reversals.
    change (series_at (b :: pre ++ a :: a :: post) 0) with (Number b).
    change (series_at (b :: pre ++ a :: post) 0) with (Number b).
    assert (Hx : series_at (b :: pre ++ a :: a :: post) 1
                 = series_at (b :: pre ++ a :: post) 1)
      by (destruct pre; reflexivity).
    rewrite Hx. cbn [skipn].
    apply Hends; apply scan_repeated; try exact Ha; reflexivity.
Qed.

Lemma Forall2_same_snd (l l' : list point) :
  map snd l = map snd l' -> Forall2 (fun p p' => snd p = snd p') l l'.
Proof.
  revert l'. induction l as [| p l IH]; intros [| p' l'] H; try discriminate.
  - constructor.
  - cbn [map] in H. injection H as Hp Hl. constructor; [exact Hp | apply IH; exact Hl].
Qed.

Lemma repeated_cycles (pre post : list num) (a : num) :
  2 <= length (pre ++ a :: post) ->
  Forall (fun y => is_finite y = true) (pre ++ a :: post) ->
  Forall2 (fun c c' => rng c = rng c' /\ mean c = mean c' /\ count c = count c')
    (extractCycles (pre ++ a :: a :: post)) (extractCycles (pre ++ a :: post)).
Proof.
  intros Hlen Hfin.
  apply (extractCycles_related (fun p p' => snd p = snd p')).
  - intros p1 p1' p2 p2' p3 p3' H1 H2 H3. unfold gap. rewrite H1, H2, H3. reflexivity.
  - intros [i x] [i' x'] [j y] [j' y'] c. cbn [snd]. intros -> ->.
    unfold formatOutput. cbn [rng mean count]. repeat split.
  - apply Forall2_same_snd. apply reversals_repeated; assumption.
Qed.

(** X15.  Reading a sample twice in a row, in a finite signal of at least two
    samples, changes neither the values of the reversals, nor the ranges,
    means and counts of the cycles, nor the histogram. *)
Theorem repeated_sample (pre post : list num) (a : num)
  (fuel : nat) (binsize : option num) :
  2 <= length (pre ++ a :: post) ->
  Forall (fun y => is_finite y = true) (pre ++ a :: post) ->
  map snd (reversals (pre ++ a :: a :: post)) = map snd (reversals (pre ++ a :: post)) /\
  map (fun c => (rng c, mean c, count c)) (extractCycles (pre ++ a :: a :: post))
  = map (fun c => (rng c, mean c, count c)) (extractCycles (pre ++ a :: post)) /\
  countCycles fuel (pre ++ a :: a :: post) binsize
  = countCycles fuel (pre ++ a :: post) binsize.
Proof.
  intros Hlen Hfin. pose proof (repeated_cycles pre post a Hlen Hfin) as H.
  split; [apply reversals_repeated; assumption |]. split.
  - induction H as [| c c' l l' (Hr & Hm & Hc) _ IH]; [reflexivity |].
    cbn [map]. rewrite Hr, Hm, Hc, IH. reflexivity.
  - unfold countCycles. f_equal. apply same_pairs.
    eapply Forall2_impl; [| exact H]. cbv beta. intros c c' (Hr & _ & Hc). split; assumption.
Qed.

Lemma repeated_sample_witness :
  countCycles 0 (map of_Z [0; 5]%Z ++ of_Z 2 :: of_Z 2 :: map of_Z [8; 12]%Z) None
  = countCycles 0 (map of_Z [0; 5]%Z ++ of_Z 2 :: map of_Z [8; 12]%Z) None.
Proof.
  apply (repeated_sample (map of_Z [0; 5]%Z) (map of_Z [8; 12]%Z) (of_Z 2) 0 None).
  - simpl. lia.
  - repeat constructor.
Defined.
